(** * clean_transcript.py: the caption cleaning pipeline

    A shallow embedding of [aggressive_clean_vtt] and of the command-line
    entry point of [youtube-content-processor/src/clean_transcript.py].

    Python strings are sequences of Unicode code points.  The functions of
    the program consult the Unicode character database only through
    [str.strip], [str.split], [str.isdigit], [str.lower], [str.upper] and
    the regular-expression classes [\s] and [\w]; the database is a
    parameter of the development ([UnicodeDB]), and so are the
    implementation of the built-in [set] ([SeenSet]) and the arithmetic of
    [int / int] and [float - float] ([PyNum]). *)

From Stdlib Require Import ZArith NArith QArith Qcanon List Ascii String Lia.
From Stdlib Require Import Floats.
From stdpp Require Import base numbers list gmap sets.

Local Open Scope N_scope.

(** ** Strings *)

(** A character is its code point, a string the list of its characters. *)
Abbreviation char := N.
Abbreviation str := (list N).

(** A string literal of the source, which are all ASCII. *)
Definition py (s : string) : str := N_of_ascii <$> list_ascii_of_string s.

Definition LF : char := 10.        (* '\n' *)
Definition SP : char := 32.        (* ' '  *)
Definition LT : char := 60.        (* '<'  *)
Definition GT : char := 62.        (* '>'  *)

(** What the program needs of the Unicode character database.  [isspace]
    is [Py_UNICODE_ISSPACE], shared by [str.strip], [str.split] and the
    class [\s]; [isword] is the class [\w]; [isdigit] is [str.isdigit] on
    one character.  [lower] and [upper] act on whole strings, since
    [str.lower] is context sensitive and both may change the length.  The
    two laws hold in every version of the database. *)
Class UnicodeDB := {
  isspace : char → bool;
  isword : char → bool;
  isdigit : char → bool;
  lower : str → str;
  upper : str → str;
  isspace_SP : isspace SP = true;
  isspace_LF : isspace LF = true
}.

Section Strings.
Context {db : UnicodeDB}.

(** [s.lstrip()], [s.rstrip()], [s.strip()] *)
Fixpoint lstrip (s : str) : str :=
  match s with
  | [] => []
  | c :: r => if isspace c then lstrip r else s
  end.

Definition rstrip (s : str) : str := reverse (lstrip (reverse s)).

Definition strip (s : str) : str := rstrip (lstrip s).

(** [s.startswith(p)] *)
Fixpoint startswith (p s : str) : bool :=
  match p, s with
  | [], _ => true
  | _ :: _, [] => false
  | a :: p', c :: s' => (a =? c) && startswith p' s'
  end.

(** [sub in s] *)
Fixpoint contains (sub s : str) : bool :=
  startswith sub s ||
  match s with
  | [] => false
  | _ :: s' => contains sub s'
  end.

(** [s.isdigit()]: at least one character, and all of them digits. *)
Definition str_isdigit (s : str) : bool :=
  match s with
  | [] => false
  | _ :: _ => forallb isdigit s
  end.

(** [s.endswith(('.', '!', '?'))] *)
Definition endswith_any (cs : list char) (s : str) : bool :=
  match last s with
  | Some c => existsb (N.eqb c) cs
  | None => false
  end.

(** [s.split(sep)] for a separator of one character: the fields between
    the separators, empty ones included; [cur] is the field being read. *)
Fixpoint split_on_from (sep : char) (cur s : str) : list str :=
  match s with
  | [] => [cur]
  | c :: r =>
      if c =? sep then cur :: split_on_from sep [] r
      else split_on_from sep (cur ++ [c]) r
  end.

Definition split_on (sep : char) (s : str) : list str := split_on_from sep [] s.

(** [s.split()]: the maximal runs of characters that are not whitespace. *)
Fixpoint split_from (cur s : str) : list str :=
  match s with
  | [] => match cur with [] => [] | _ :: _ => [cur] end
  | c :: r =>
      if isspace c then
        match cur with
        | [] => split_from [] r
        | _ :: _ => cur :: split_from [] r
        end
      else split_from (cur ++ [c]) r
  end.

Definition split (s : str) : list str := split_from [] s.

(** [sep.join(l)] *)
Fixpoint join (sep : str) (l : list str) : str :=
  match l with
  | [] => []
  | [s] => s
  | s :: l' => s ++ sep ++ join sep l'
  end.

(** [re.sub(r'<[^>]*>', '', s)].  A match starts at a ['<'] that has a
    ['>'] somewhere after it and ends at the first such ['>']; matches are
    taken leftmost first and do not overlap.  [in_tag] tells that the
    scan is inside a match. *)
Fixpoint re_sub_tags_from (in_tag : bool) (s : str) : str :=
  match s with
  | [] => []
  | c :: r =>
      if in_tag then re_sub_tags_from (negb (c =? GT)) r
      else if (c =? LT) && existsb (N.eqb GT) r then re_sub_tags_from true r
      else c :: re_sub_tags_from false r
  end.

Definition re_sub_tags (s : str) : str := re_sub_tags_from false s.

(** [re.sub(r'\s+', ' ', s)]: every maximal run of whitespace becomes one
    space.  [in_run] tells that the previous character was whitespace. *)
Fixpoint re_sub_ws_from (in_run : bool) (s : str) : str :=
  match s with
  | [] => []
  | c :: r =>
      if isspace c then
        if in_run then re_sub_ws_from true r else SP :: re_sub_ws_from true r
      else c :: re_sub_ws_from false r
  end.

Definition re_sub_ws (s : str) : str := re_sub_ws_from false s.

(** [re.sub(r'[^\w]', '', s)] *)
Definition re_sub_nonword (s : str) : str := List.filter isword s.

End Strings.

(** ** Collaborators of the pipeline *)

(** The built-in [set], through the three operations the program uses:
    [set()], [s.add(k)] and [k in s].  Nothing else is known of its
    representation; in particular no order of its elements. *)
Class SeenSet := {
  seen_set : Type;
  set_new : seen_set;
  set_add : str → seen_set → seen_set;
  set_contains : str → seen_set → bool;
  set_contains_new k : set_contains k set_new = false;
  set_contains_add k k' s :
    set_contains k (set_add k' s) = bool_decide (k = k') || set_contains k s
}.

(** The numbers of a segment: [int / int] is true division and gives a
    float, [float - float] a float.  [int_true_div] is the quotient for a
    divisor that is not zero. *)
Class PyNum := {
  pyfloat : Type;
  float_of_int : Z → pyfloat;
  int_true_div : Z → Z → pyfloat;
  float_sub : pyfloat → pyfloat → pyfloat
}.

(** Exceptions a step may raise, and results of steps that may raise. *)
Inductive exn := ZeroDivisionError.

Inductive result (A : Type) :=
  | Ok (a : A)
  | Raise (e : exn).
Arguments Ok {A} a.
Arguments Raise {A} e.

#[export] Instance result_ret : MRet result := @Ok.
#[export] Instance result_bind : MBind result := λ A B f r,
  match r with
  | Ok a => f a
  | Raise e => Raise e
  end.

(** [a / b] on integers. *)
Definition truediv {num : PyNum} (a b : Z) : result pyfloat :=
  if (b =? 0)%Z then Raise ZeroDivisionError else Ok (int_true_div a b).

(** ** The stages of [aggressive_clean_vtt] *)

Record segment (float : Type) := {
  text : str;
  start : float;
  end_ : float;
  duration : float
}.
Arguments Build_segment {float}.
Arguments text {float}.
Arguments start {float}.
Arguments end_ {float}.
Arguments duration {float}.

Definition nonempty {A} (l : list A) : bool :=
  match l with
  | [] => false
  | _ :: _ => true
  end.

Section Pipeline.
Context {db : UnicodeDB} {py_set : SeenSet} {num : PyNum}.

(** *** Step one: the text lines *)

(** The test of the first [if] of the loop, on the stripped line. *)
Definition skipped (line : str) : bool :=
  negb (nonempty line)
  || startswith (py "WEBVTT") line
  || startswith (py "Kind:") line
  || startswith (py "Language:") line
  || contains (py "-->") line
  || str_isdigit line.

(** One round of the loop over [lines]. *)
Definition text_lines_step (text_lines : list str) (line : str) : list str :=
  let line := strip line in
  if skipped line then text_lines
  else
    let clean_line := re_sub_tags line in
    let clean_line := strip (re_sub_ws clean_line) in
    if nonempty clean_line && (2 <? length clean_line)%nat
    then text_lines ++ [clean_line]
    else text_lines.

Definition text_lines (vtt_content : str) : list str :=
  let lines := split_on LF vtt_content in
  fold_left text_lines_step lines [].

(** *** Step two: the unique words *)

Definition clean_word (word : str) : str := re_sub_nonword (lower word).

(** One round of the inner loop, over the words of a line. *)
Definition unique_words_step (st : seen_set * list str) (word : str)
  : seen_set * list str :=
  let '(seen_words, unique_words) := st in
  let clean_word := clean_word word in
  if nonempty clean_word && negb (set_contains clean_word seen_words)
  then (set_add clean_word seen_words, unique_words ++ [word])
  else (seen_words, unique_words).

Definition unique_words_loop (text_lines : list str) : seen_set * list str :=
  fold_left (λ st line, fold_left unique_words_step (split line) st)
    text_lines (set_new, []).

Definition unique_words (text_lines : list str) : list str :=
  (unique_words_loop text_lines).2.

(** *** Step three: the text *)

Definition result_text (unique_words : list str) : str :=
  let result_text := join [SP] unique_words in
  let result_text := strip (re_sub_ws result_text) in
  match result_text with
  | [] => result_text
  | c :: rest => upper [c] ++ rest
  end.

(** *** Step four: the sentences *)

Definition sentence_marks : list char := [46; 33; 63].    (* . ! ? *)

(** The test that closes [current_sentence], after [word] joined it. *)
Definition closes (word : str) (current_sentence : list str) : bool :=
  endswith_any sentence_marks word
  || (50 <? length (join [SP] current_sentence))%nat.

(** [sentences.append(sentence_text)] under [if sentence_text]. *)
Definition append_sentence (sentences current_sentence : list str) : list str :=
  let sentence_text := strip (join [SP] current_sentence) in
  if nonempty sentence_text then sentences ++ [sentence_text] else sentences.

(** One round of the loop over [words]. *)
Definition sentences_step (st : list str * list str) (word : str)
  : list str * list str :=
  let '(sentences, current_sentence) := st in
  let current_sentence := current_sentence ++ [word] in
  if closes word current_sentence
  then (append_sentence sentences current_sentence, [])
  else (sentences, current_sentence).

Definition sentences_of_words (words : list str) : list str :=
  let '(sentences, current_sentence) := fold_left sentences_step words ([], []) in
  if nonempty current_sentence
  then append_sentence sentences current_sentence
  else sentences.

Definition sentences (result_text : str) : list str :=
  sentences_of_words (split result_text).

(** *** Step five: the segments *)

Definition total_duration : Z := 144.

(** The loop over [enumerate(sentences)], from index [i] on; [n] is
    [len(sentences)] of the whole list. *)
Fixpoint segments_from (n : nat) (i : nat) (rest : list str)
    (segments : list (segment pyfloat)) : result (list (segment pyfloat)) :=
  match rest with
  | [] => mret segments
  | sentence :: rest =>
      if nonempty (strip sentence) then
        start_time ← truediv (Z.of_nat i * total_duration) (Z.of_nat n);
        end_time ← truediv ((Z.of_nat i + 1) * total_duration) (Z.of_nat n);
        segments_from n (S i) rest
          (segments ++ [ {| text := strip sentence;
                            start := start_time;
                            end_ := end_time;
                            duration := float_sub end_time start_time |} ])
      else segments_from n (S i) rest segments
  end.

Definition segments (sentences : list str)
  : result (list (segment pyfloat)) :=
  segments_from (length sentences) 0 sentences [].

(** *** The function *)

Definition aggressive_clean_vtt (vtt_content : str)
  : result (list (segment pyfloat)) :=
  let text_lines := text_lines vtt_content in
  if negb (nonempty text_lines) then mret []
  else
    let unique_words := unique_words text_lines in
    let result_text := result_text unique_words in
    let sentences := sentences result_text in
    segments sentences.

End Pipeline.

(** ** The command line *)

(** One caption format of a track, as the program reads it:
    [fmt.get('ext')] and [fmt['url']]; [None] is a missing key. *)
Record format := {
  ext : option str;
  url : option str
}.

(** The dictionary [extract_info] returns, as the program reads it: the
    tracks by language under ['subtitles'] and ['automatic_captions'];
    [None] is a missing key. *)
Record info := {
  subtitles : option (gmap str (list format));
  automatic_captions : option (gmap str (list format))
}.

(** The collaborator [yt_dlp]: [extract_info] under the options of the
    program, which name the language, and [urlopen] with the reading and
    decoding of the answer.  A call returns, or raises an exception, given
    by its message. *)
Class YoutubeDL := {
  extract_info : str → str → str + info;
  urlopen : str → str + str
}.

(** What the process does to the world, in order.  [Print_json segments]
    is [print(json.dumps(segments, ensure_ascii=False))]. *)
Inductive event (float : Type) :=
  | Extract_info (url language : str)
  | Urlopen (subtitle_url : str)
  | Print_json (segments : list (segment float))
  | Print_stderr (line : str).
Arguments Extract_info {float}.
Arguments Urlopen {float}.
Arguments Print_json {float}.
Arguments Print_stderr {float}.

(** A run of the process: its events and its exit status. *)
Abbreviation run float := (list (event float) * Z)%type.

Definition exn_message (e : exn) : str :=
  match e with
  | ZeroDivisionError => py "division by zero"
  end.

Section CommandLine.
Context {db : UnicodeDB} {py_set : SeenSet} {num : PyNum} {ydl : YoutubeDL}.

(** The handler of [except Exception as e], after the events [done]. *)
Definition handler (done : list (event pyfloat)) (message : str)
  : run pyfloat :=
  (done ++ [Print_stderr (py "Error: " ++ message)], 1%Z).

Definition language_not_found (language : str) : str :=
  [25214; 19981; 21040] ++ language ++ [35486; 35328; 30340; 23383; 24149].

Definition vtt_not_found : str :=
  [25214; 19981; 21040; 32; 86; 84; 84; 32; 26684; 24335; 30340; 23383; 24149].

(** The track of [language]: the uploaded one, else the automatic one. *)
Definition find_formats (info : info) (language : str) : option (list format) :=
  match subtitles info ≫= (.!! language) with
  | Some formats => Some formats
  | None => automatic_captions info ≫= (.!! language)
  end.

(** The loop over [formats]: at the first format whose [ext] is ['vtt'],
    its [url], or a [KeyError] when it has none. *)
Fixpoint find_vtt (formats : list format) : str + option str :=
  match formats with
  | [] => inr None
  | fmt :: formats =>
      if bool_decide (ext fmt = Some (py "vtt")) then
        match url fmt with
        | Some u => inr (Some u)
        | None => inl (py "'url'")
        end
      else find_vtt formats
  end.

Definition download_and_clean_subtitles (url language : str) : run pyfloat :=
  let done := [Extract_info url language] in
  match extract_info url language with
  | inl message => handler done message
  | inr info =>
      match find_formats info language with
      | None => handler done (language_not_found language)
      | Some formats =>
          match find_vtt formats with
          | inl message => handler done message
          | inr subtitle_url =>
              match subtitle_url with
              | None | Some [] => handler done vtt_not_found
              | Some subtitle_url =>
                  let done := done ++ [Urlopen subtitle_url] in
                  match urlopen subtitle_url with
                  | inl message => handler done message
                  | inr subtitle_data =>
                      match aggressive_clean_vtt subtitle_data with
                      | Raise e => handler done (exn_message e)
                      | Ok segments =>
                          (done ++ [Print_json segments], 0%Z)
                      end
                  end
              end
          end
      end
  end.

Definition usage : str :=
  py "Usage: python clean_transcript.py <video_url> <language>".

(** The block under [if __name__ == "__main__"], on [sys.argv]. *)
Definition main (argv : list str) : run pyfloat :=
  if negb (length argv =? 3)%nat then ([Print_stderr usage], 1%Z)
  else
    let video_url := argv !!! 1%nat in
    let language := argv !!! 2%nat in
    download_and_clean_subtitles video_url language.

End CommandLine.

(** ** Vocabulary of the statements *)

Section Vocabulary.
Context {db : UnicodeDB}.

(** No character of [s] is whitespace. *)
Definition nospace (s : str) : Prop := Forall (λ c, isspace c = false) s.

(** A word, as [str.split] returns them. *)
Definition word (w : str) : Prop := w ≠ [] ∧ nospace w.

(** Neither the first nor the last character of [s] is whitespace. *)
Definition stripped (s : str) : Prop :=
  (∀ c, head s = Some c → isspace c = false) ∧
  (∀ c, last s = Some c → isspace c = false).

(** The buffer [current_sentence] met the closing test after none of its
    words. *)
Definition never_closed (buffer : list str) : Prop :=
  ∀ p w q, buffer = p ++ w :: q → closes w (p ++ [w]) = false.

(** The buffer met the closing test after its last word, and after none
    before. *)
Definition closed_at_last (buffer : list str) : Prop :=
  ∃ p w, buffer = p ++ [w] ∧ never_closed p ∧ closes w buffer = true.

(** The word [w], read after the words [before], is a first occurrence:
    its normalized key is not empty and is the key of no word before. *)
Definition first_occurrence (before : list str) (w : str) : Prop :=
  clean_word w ≠ [] ∧ clean_word w ∉ clean_word <$> before.

#[export] Instance first_occurrence_dec before w :
  Decision (first_occurrence before w).
Proof. unfold first_occurrence. apply _. Defined.

(** The words of [ws] that are first occurrences, in their order, when
    [ws] is read after the words [before]. *)
Fixpoint first_occurrences (before ws : list str) : list str :=
  match ws with
  | [] => []
  | w :: ws =>
      (if decide (first_occurrence before w) then [w] else [])
      ++ first_occurrences (before ++ [w]) ws
  end.

(** The clean form of a stripped line. *)
Definition clean_line (line : str) : str :=
  strip (re_sub_ws (re_sub_tags line)).

(** The rule of the text lines on a stripped line, for the header marks
    [prefixes]: the line is not empty, starts with no header mark, holds
    no time range arrow, is not a number, and its clean form is longer
    than two characters. *)
Definition kept_line (prefixes : list str) (line : str) : Prop :=
  line ≠ [] ∧
  (∀ p, p ∈ prefixes → ¬ p `prefix_of` line) ∧
  (¬ ∃ before after, line = before ++ py "-->" ++ after) ∧
  (¬ (line ≠ [] ∧ Forall (λ c, isdigit c = true) line)) ∧
  (2 < length (clean_line line))%nat.

(** The same rule as a test. *)
Definition kept_lineb (prefixes : list str) (line : str) : bool :=
  nonempty line
  && forallb (λ p, negb (startswith p line)) prefixes
  && negb (contains (py "-->") line)
  && negb (str_isdigit line)
  && (2 <? length (clean_line line))%nat.

(** The header marks of the program. *)
Definition header_marks : list str :=
  [py "WEBVTT"; py "Kind:"; py "Language:"].

(** The rule as the loop computes it. *)
Definition keeps (line : str) : bool :=
  negb (skipped line) && (2 <? length (clean_line line))%nat.

(** No ['<'] of [s] has a ['>'] after it: no tag is left. *)
Fixpoint tagfree (s : str) : Prop :=
  match s with
  | [] => True
  | c :: r => (c = LT → GT ∉ r) ∧ tagfree r
  end.

(** Every whitespace of [s] is one space between two other characters;
    [in_run] tells that a whitespace stands before [s]. *)
Fixpoint collapsed (in_run : bool) (s : str) : Prop :=
  match s with
  | [] => True
  | c :: r =>
      if isspace c then c = SP ∧ in_run = false ∧ collapsed true r
      else collapsed false r
  end.

(** The segment of the sentence at index [i] among [n] sentences. *)
Definition segment_at {num : PyNum} (n i : nat) (sentence : str)
  : segment pyfloat :=
  let start_time := int_true_div (Z.of_nat i * total_duration) (Z.of_nat n) in
  let end_time :=
    int_true_div ((Z.of_nat i + 1) * total_duration) (Z.of_nat n) in
  {| text := sentence;
     start := start_time;
     end_ := end_time;
     duration := float_sub end_time start_time |}.

End Vocabulary.


(** ** Instances *)

(** The database on ASCII: exact on the code points below 128, which is
    all the examples of this file use.  Beyond them it knows the other
    whitespace characters, and takes every other character for a letter
    without case. *)
Definition ascii_isspace (c : char) : bool :=
  bool_decide (c ∈ [9; 10; 11; 12; 13; 28; 29; 30; 31; 32; 133; 160; 5760;
                    8232; 8233; 8239; 8287; 12288])
  || ((8192 <=? c) && (c <=? 8202)).

Definition ascii_isdigit (c : char) : bool := (48 <=? c) && (c <=? 57).

Definition ascii_isupper (c : char) : bool := (65 <=? c) && (c <=? 90).

Definition ascii_islower (c : char) : bool := (97 <=? c) && (c <=? 122).

Definition ascii_isword (c : char) : bool :=
  if c <? 128
  then ascii_isdigit c || ascii_isupper c || ascii_islower c || (c =? 95)
  else negb (ascii_isspace c).

Definition ascii_lower (s : str) : str :=
  (λ c, if ascii_isupper c then c + 32 else c) <$> s.

Definition ascii_upper (s : str) : str :=
  (λ c, if ascii_islower c then c - 32 else c) <$> s.

#[export] Instance ascii_db : UnicodeDB := {|
  isspace := ascii_isspace;
  isword := ascii_isword;
  isdigit := ascii_isdigit;
  lower := ascii_lower;
  upper := ascii_upper;
  isspace_SP := eq_refl;
  isspace_LF := eq_refl
|}.

(** A set as the list of its elements, latest first. *)
Lemma list_seen_new (k : str) : bool_decide (k ∈ @nil str) = false.
Proof. apply bool_decide_eq_false. set_solver. Qed.

Lemma list_seen_add (k k' : str) (s : list str) :
  bool_decide (k ∈ k' :: s) = bool_decide (k = k') || bool_decide (k ∈ s).
Proof.
  rewrite <- bool_decide_or. apply bool_decide_ext. set_solver.
Qed.

#[export] Instance list_seen : SeenSet | 10 := {|
  seen_set := list str;
  set_new := [];
  set_add k s := k :: s;
  set_contains k s := bool_decide (k ∈ s);
  set_contains_new := list_seen_new;
  set_contains_add := list_seen_add
|}.

(** A set as a [gset], whose elements have no order of insertion. *)
Lemma gset_seen_new (k : str) : bool_decide (k ∈ (∅ : gset str)) = false.
Proof. apply bool_decide_eq_false. set_solver. Qed.

Lemma gset_seen_add (k k' : str) (s : gset str) :
  bool_decide (k ∈ {[ k' ]} ∪ s) = bool_decide (k = k') || bool_decide (k ∈ s).
Proof.
  rewrite <- bool_decide_or. apply bool_decide_ext. set_solver.
Qed.

#[export] Instance gset_seen : SeenSet | 20 := {|
  seen_set := gset str;
  set_new := ∅;
  set_add k s := {[ k ]} ∪ s;
  set_contains k s := bool_decide (k ∈ s);
  set_contains_new := gset_seen_new;
  set_contains_add := gset_seen_add
|}.

(** Exact arithmetic: [a / b] is the rational number. *)
#[export] Instance exact_num : PyNum | 20 := {|
  pyfloat := Qc;
  float_of_int z := Q2Qc (inject_Z z);
  int_true_div a b := (Q2Qc (inject_Z a) / Q2Qc (inject_Z b))%Qc;
  float_sub x y := (x - y)%Qc
|}.

(** IEEE 754 binary64, the [float] of CPython, over the primitive floats
    and their specification.  [float(z)] is [z] rounded to the nearest
    float, ties to even. *)
Definition binary64_of_int (z : Z) : float :=
  SF2Prim (binary_normalize prec emax z 0 false).

(** [z] has at most 53 bits, so that [float(z)] is [z]. *)
Definition fits53 (z : Z) : bool := (Z.abs z <? 2 ^ 53)%Z.

(** The quotient [a / b] of two integers rounded to the nearest float,
    ties to even, for [b] other than zero: the mantissa of the quotient
    with its remainder, then the rounding. *)
Definition binary64_rounded_quotient (a b : Z) : float :=
  SF2Prim
    match a with
    | Z0 => S754_zero (b <? 0)%Z
    | _ =>
        let '(q, e, l) :=
          SFdiv_core_binary prec emax (Z.abs a) 0 (Z.abs b) 0 in
        binary_round_aux prec emax (xorb (a <? 0)%Z (b <? 0)%Z) q e l
    end.

(** [a / b] as [long_true_divide] of CPython computes it: operands of at
    most 53 bits are converted and divided by the machine, others get
    the rounded quotient.  Where the quotient is too large for a float
    CPython raises [OverflowError] and this has an infinity; the
    quotients of the program are at most 144. *)
Definition binary64_true_div (a b : Z) : float :=
  if fits53 a && fits53 b
  then (binary64_of_int a / binary64_of_int b)%float
  else binary64_rounded_quotient a b.

#[export] Instance binary64 : PyNum | 10 := {|
  pyfloat := float;
  float_of_int := binary64_of_int;
  int_true_div := binary64_true_div;
  float_sub x y := (x - y)%float
|}.

(** A collaborator that knows one video, which has an uploaded English
    track in two formats. *)
Definition demo_url : str := py "https://video.example/watch?v=1".

Definition demo_vtt_url : str := py "https://video.example/v1.en.vtt".

Definition demo_payload : str :=
  join [LF]
    [py "WEBVTT"; py "Kind: captions"; py "Language: en"; [];
     py "00:00:00.000 --> 00:00:02.000"; py "Hello hello <c>world</c>"; [];
     py "00:00:02.000 --> 00:00:04.000"; py "world again"; []].

Definition demo_info : info := {|
  subtitles :=
    Some {[ py "en" :=
              [ {| ext := Some (py "json3");
                   url := Some (py "https://video.example/v1.en.json3") |};
                {| ext := Some (py "vtt"); url := Some demo_vtt_url |} ] ]};
  automatic_captions := Some ∅
|}.

#[export] Instance demo_ydl : YoutubeDL := {|
  extract_info url language :=
    if bool_decide (url = demo_url) then inr demo_info
    else inl (py "Unsupported URL");
  urlopen url :=
    if bool_decide (url = demo_vtt_url) then inr demo_payload
    else inl (py "HTTP Error 404: Not Found")
|}.

(** A text of three sentences. *)
Definition three_sentences : str := py "Hello world. How are you? Fine".

(** ** Vocabulary of the command line *)

(** The track the program takes for [language]: the uploaded one when
    there is one, the automatic one otherwise. *)
Definition selects (info : info) (language : str) (formats : list format)
  : Prop :=
  (∃ tracks, subtitles info = Some tracks ∧ tracks !! language = Some formats)
  ∨ ((subtitles info = None
      ∨ ∃ tracks, subtitles info = Some tracks ∧ tracks !! language = None) ∧
     ∃ tracks, automatic_captions info = Some tracks ∧
       tracks !! language = Some formats).

(** Neither kind of track exists for [language]. *)
Definition no_track (info : info) (language : str) : Prop :=
  (subtitles info = None
   ∨ ∃ tracks, subtitles info = Some tracks ∧ tracks !! language = None) ∧
  (automatic_captions info = None
   ∨ ∃ tracks, automatic_captions info = Some tracks ∧
       tracks !! language = None).

Definition is_vtt (fmt : format) : Prop := ext fmt = Some (py "vtt").

(** [fmt] is the first format of [formats] whose [ext] is ['vtt']. *)
Definition first_vtt (formats : list format) (fmt : format) : Prop :=
  ∃ before after,
    formats = before ++ fmt :: after ∧ Forall (λ f, ¬ is_vtt f) before ∧
    is_vtt fmt.


(** A collaborator with one answer to every call. *)
Definition fixed_ydl (answer : str + info) (answer_open : str + str)
  : YoutubeDL := {|
  extract_info _ _ := answer;
  urlopen _ := answer_open
|}.

(** Information with an automatic English track only, with a track that
    has no VTT format, and with a track whose first VTT format has no
    address. *)
Definition demo_info_automatic : info := {|
  subtitles := Some ∅;
  automatic_captions :=
    Some {[ py "en" :=
              [ {| ext := Some (py "json3");
                   url := Some (py "https://video.example/v1.en.json3") |};
                {| ext := Some (py "vtt"); url := Some demo_vtt_url |} ] ]}
|}.

Definition demo_info_no_vtt : info := {|
  subtitles :=
    Some {[ py "en" :=
              [ {| ext := Some (py "json3");
                   url := Some (py "https://video.example/v1.en.json3") |} ] ]};
  automatic_captions := None
|}.

Definition demo_info_no_url : info := {|
  subtitles :=
    Some {[ py "en" :=
              [ {| ext := Some (py "vtt"); url := None |};
                {| ext := Some (py "vtt"); url := Some demo_vtt_url |} ] ]};
  automatic_captions := None
|}.


(** The English track of [demo_info] and of [demo_info_automatic]. *)
Definition demo_formats : list format :=
  [ {| ext := Some (py "json3");
       url := Some (py "https://video.example/v1.en.json3") |};
    {| ext := Some (py "vtt"); url := Some demo_vtt_url |} ].


(** * Facts *)

(** ** Strings *)

Section StringFacts.
Context {db : UnicodeDB}.

Lemma lstrip_head s c : head (lstrip s) = Some c → isspace c = false.
Proof.
  induction s as [|a s IH]; simpl; [done|].
  destruct (isspace a) eqn:Ha; [done|]. simpl. by intros [= <-].
Qed.

Lemma lstrip_id s : (∀ c, head s = Some c → isspace c = false) → lstrip s = s.
Proof.
  destruct s as [|a s]; simpl; [done|]. intros Hs. by rewrite (Hs a).
Qed.

Lemma lstrip_suffix s : lstrip s `suffix_of` s.
Proof.
  induction s as [|a s IH]; simpl; [done|].
  destruct (isspace a); [by apply suffix_cons_r|done].
Qed.

Lemma rstrip_nil : rstrip [] = [].
Proof. done. Qed.

Lemma rstrip_snoc s c :
  rstrip (s ++ [c]) = if isspace c then rstrip s else s ++ [c].
Proof.
  unfold rstrip. rewrite reverse_snoc. simpl.
  destruct (isspace c); [done|].
  by rewrite reverse_cons, reverse_involutive.
Qed.

Lemma rstrip_id s : (∀ c, last s = Some c → isspace c = false) → rstrip s = s.
Proof.
  destruct s as [|c s _] using rev_ind; [done|].
  intros Hs. rewrite rstrip_snoc, (Hs c); [done|]. by rewrite last_snoc.
Qed.

Lemma rstrip_last s c : last (rstrip s) = Some c → isspace c = false.
Proof.
  induction s as [|a s IH] using rev_ind; [done|].
  rewrite rstrip_snoc. destruct (isspace a) eqn:Ha; [done|].
  rewrite last_snoc. by intros [= <-].
Qed.

Lemma rstrip_prefix s : rstrip s `prefix_of` s.
Proof.
  induction s as [|a s IH] using rev_ind; [done|].
  rewrite rstrip_snoc. destruct (isspace a); [|done].
  by apply prefix_app_r.
Qed.

Lemma strip_stripped s : stripped (strip s).
Proof.
  split; intros c Hc.
  - destruct (rstrip_prefix (lstrip s)) as [k Hk]. fold (strip s) in Hk.
    apply (lstrip_head s). rewrite Hk.
    by destruct (strip s).
  - by apply (rstrip_last (lstrip s)).
Qed.

Lemma strip_id s : stripped s → strip s = s.
Proof.
  intros [Hh Hl]. unfold strip. rewrite (lstrip_id s Hh). by apply rstrip_id.
Qed.

Lemma strip_idemp s : strip (strip s) = strip s.
Proof. apply strip_id, strip_stripped. Qed.

Lemma strip_infix s : ∃ a b, s = a ++ strip s ++ b.
Proof.
  destruct (rstrip_prefix (lstrip s)) as [b Hb].
  destruct (lstrip_suffix s) as [a Ha].
  exists a, b. unfold strip. by rewrite <- Hb.
Qed.

(** [str.split] *)

Lemma split_from_nospace cur w s :
  nospace w → split_from cur (w ++ s) = split_from (cur ++ w) s.
Proof.
  intros Hw. revert cur. induction Hw as [|c w Hc _ IH]; intros cur; simpl.
  - by rewrite app_nil_r.
  - rewrite Hc, IH. by rewrite <- app_assoc.
Qed.

Lemma split_from_words cur s : nospace cur → Forall word (split_from cur s).
Proof.
  revert cur. induction s as [|c s IH]; intros cur Hcur; simpl.
  - destruct cur; [done|]. apply Forall_singleton. by split.
  - destruct (isspace c) eqn:Hc.
    + destruct cur as [|a cur]; [by apply IH|].
      apply Forall_cons. split; [by split|]. apply IH, Forall_nil_2.
    + apply IH. apply Forall_app. split; [done|]. by apply Forall_singleton.
Qed.

Lemma split_words s : Forall word (split s).
Proof. apply split_from_words, Forall_nil_2. Qed.

Lemma split_join ws : Forall word ws → split (join [SP] ws) = ws.
Proof.
  unfold split. induction 1 as [|w ws [Hne Hw] Hws IH]; [done|].
  destruct ws as [|w' ws].
  - simpl. rewrite <- (app_nil_r w), split_from_nospace by done.
    rewrite app_nil_r. simpl. by destruct w.
  - change (join [SP] (w :: w' :: ws)) with (w ++ SP :: join [SP] (w' :: ws)).
    rewrite split_from_nospace by done. cbn [app split_from].
    rewrite isspace_SP. destruct w; [done|]. by rewrite IH.
Qed.

Lemma join_nonempty ws : ws ≠ [] → Forall word ws → join [SP] ws ≠ [].
Proof.
  destruct 2 as [|w ws [Hne _] _]; [done|].
  destruct ws; simpl; [done|]. by destruct w.
Qed.

Lemma head_join ws w : Forall word (w :: ws) → head (join [SP] (w :: ws)) = head w.
Proof.
  inversion_clear 1 as [|? ? [Hne _] _]. destruct ws; [done|].
  simpl. by destruct w.
Qed.

Lemma last_join ws w :
  Forall word ws → last ws = Some w → last (join [SP] ws) = last w.
Proof.
  induction 1 as [|a ws Ha Hws IH]; [done|].
  destruct ws as [|b r]; [by intros [= ->]|].
  intros Hl. change (last (a :: b :: r)) with (last (b :: r)) in Hl.
  change (join [SP] (a :: b :: r)) with (a ++ SP :: join [SP] (b :: r)).
  rewrite last_app, last_cons, (IH Hl).
  destruct (last w) eqn:E; [done|]. apply last_None in E as ->.
  apply last_Some_elem_of in Hl.
  by destruct (proj1 (Forall_forall _ _) Hws _ Hl).
Qed.

Lemma join_words_stripped ws : Forall word ws → stripped (join [SP] ws).
Proof.
  intros Hws. split; intros c.
  - destruct ws as [|w ws]; [done|]. rewrite head_join by done.
    apply Forall_cons in Hws as [[_ Hw] _].
    destruct w; [done|]. intros [= <-]. by apply Forall_cons in Hw as [? _].
  - destruct (last ws) as [w|] eqn:El.
    + rewrite (last_join ws w) by done. intros Hc.
      apply last_Some_elem_of in El, Hc.
      destruct (proj1 (Forall_forall _ _) Hws _ El) as [_ Hw].
      by apply (proj1 (Forall_forall _ _) Hw).
    + by apply last_None in El as ->.
Qed.

Lemma strip_join ws : Forall word ws → strip (join [SP] ws) = join [SP] ws.
Proof. intros. by apply strip_id, join_words_stripped. Qed.

(** [str.split] on a separator cuts at the separators and nowhere else. *)

Lemma split_on_from_nonempty sep cur s : split_on_from sep cur s ≠ [].
Proof.
  revert cur. induction s as [|c s IH]; intros cur; simpl; [done|].
  by destruct (c =? sep).
Qed.

Lemma join_split_on_from sep cur s :
  join [sep] (split_on_from sep cur s) = cur ++ s.
Proof.
  revert cur. induction s as [|c s IH]; intros cur.
  - simpl. by rewrite app_nil_r.
  - cbn [split_on_from]. destruct (c =? sep) eqn:Hc.
    + apply N.eqb_eq in Hc as ->.
      pose proof (split_on_from_nonempty sep [] s) as Hne.
      specialize (IH []). destruct (split_on_from sep [] s) as [|l ls]; [done|].
      change (join [sep] (cur :: l :: ls))
        with (cur ++ sep :: join [sep] (l :: ls)).
      by rewrite IH.
    + by rewrite IH, <- app_assoc.
Qed.

Lemma join_split_on sep s : join [sep] (split_on sep s) = s.
Proof. apply join_split_on_from. Qed.

(** The two substitutions, match by match: a tag is a ['<'], characters
    other than ['>'], and a ['>']; a run of whitespace is as long as it
    can be. *)

Lemma re_sub_tags_from_inside body rest :
  GT ∉ body →
  re_sub_tags_from true (body ++ GT :: rest) = re_sub_tags_from false rest.
Proof.
  induction body as [|c body IH]; simpl; [done|].
  intros [Hc Hbody]%not_elem_of_cons.
  rewrite (proj2 (N.eqb_neq c GT)) by done. by apply IH.
Qed.

Lemma re_sub_tags_tag body rest :
  GT ∉ body → re_sub_tags (LT :: body ++ GT :: rest) = re_sub_tags rest.
Proof.
  intros Hbody. unfold re_sub_tags. simpl.
  rewrite existsb_app. simpl. rewrite orb_true_r.
  by apply re_sub_tags_from_inside.
Qed.

Lemma re_sub_tags_char c rest :
  c ≠ LT ∨ GT ∉ rest → re_sub_tags (c :: rest) = c :: re_sub_tags rest.
Proof.
  unfold re_sub_tags. cbn [re_sub_tags_from]. intros [Hc|Hrest].
  - by rewrite (proj2 (N.eqb_neq c LT)).
  - destruct (existsb (N.eqb GT) rest) eqn:Hgt; [|by rewrite andb_false_r].
    apply existsb_exists in Hgt as (x & Hx & <-%N.eqb_eq).
    by apply list_elem_of_In in Hx.
Qed.

Lemma re_sub_ws_from_after_run rest :
  (∀ c, head rest = Some c → isspace c = false) →
  re_sub_ws_from true rest = re_sub_ws_from false rest.
Proof. destruct rest as [|c rest]; simpl; [done|]. intros Hc. by rewrite Hc. Qed.

Lemma re_sub_ws_from_run run rest :
  Forall (λ c, isspace c = true) run →
  (∀ c, head rest = Some c → isspace c = false) →
  re_sub_ws_from true (run ++ rest) = re_sub_ws_from false rest.
Proof.
  intros Hrun Hrest. induction Hrun as [|c run Hc _ IH]; simpl.
  - by apply re_sub_ws_from_after_run.
  - by rewrite Hc.
Qed.

Lemma re_sub_ws_run c run rest :
  Forall (λ c, isspace c = true) (c :: run) →
  (∀ c, head rest = Some c → isspace c = false) →
  re_sub_ws (c :: run ++ rest) = SP :: re_sub_ws rest.
Proof.
  intros [Hc Hrun]%Forall_cons Hrest. unfold re_sub_ws. simpl.
  rewrite Hc. f_equal. by apply re_sub_ws_from_run.
Qed.

Lemma re_sub_ws_char c rest :
  isspace c = false → re_sub_ws (c :: rest) = c :: re_sub_ws rest.
Proof. intros Hc. unfold re_sub_ws. simpl. by rewrite Hc. Qed.

End StringFacts.

(** ** The sentences *)

Section SentenceFacts.
Context {db : UnicodeDB}.

Lemma never_closed_nil : never_closed [].
Proof. intros p w q Hq. by destruct p. Qed.

Lemma never_closed_snoc buffer w :
  never_closed buffer → closes w (buffer ++ [w]) = false →
  never_closed (buffer ++ [w]).
Proof.
  intros Hb Hw p w' q Heq.
  destruct q as [|x q _] using rev_ind.
  - apply app_inj_tail in Heq as [-> ->]. done.
  - apply (Hb p w' q).
    change (p ++ w' :: q ++ [x]) with (p ++ (w' :: q) ++ [x]) in Heq.
    rewrite app_assoc in Heq. by apply app_inj_tail in Heq as [-> _].
Qed.

Lemma append_sentence_words sentences buffer :
  buffer ≠ [] → Forall word buffer →
  append_sentence sentences buffer = sentences ++ [join [SP] buffer].
Proof.
  intros Hne Hb. unfold append_sentence.
  rewrite strip_join by done.
  by destruct (join [SP] buffer) eqn:E; [apply join_nonempty in E|].
Qed.

(** The loop over the words, from any state it can be in: the buffers it
    closes, and the one it leaves open. *)
Lemma sentences_loop words : ∀ sentences buffer,
  Forall word words → Forall word buffer → never_closed buffer →
  ∃ closed rest,
    fold_left sentences_step words (sentences, buffer)
      = (sentences ++ (join [SP] <$> closed), rest) ∧
    buffer ++ words = concat closed ++ rest ∧
    Forall closed_at_last closed ∧
    never_closed rest.
Proof.
  induction words as [|w words IH]; intros sentences buffer Hws Hb Hnc.
  - exists [], buffer. simpl. by rewrite !app_nil_r.
  - apply Forall_cons in Hws as [Hw Hws]. simpl.
    assert (Forall word (buffer ++ [w])) as Hb'.
    { apply Forall_app. split; [done|]. by apply Forall_singleton. }
    destruct (closes w (buffer ++ [w])) eqn:Hc.
    + rewrite append_sentence_words by (done || by destruct buffer).
      destruct (IH (sentences ++ [join [SP] (buffer ++ [w])]) [] Hws)
        as (closed & rest & Hfold & Heq & Hclosed & Hrest);
        [done|apply never_closed_nil|].
      exists ((buffer ++ [w]) :: closed), rest. split_and!.
      * rewrite Hfold. by rewrite <- app_assoc.
      * change (concat ((buffer ++ [w]) :: closed))
          with ((buffer ++ [w]) ++ concat closed).
        by rewrite <- !app_assoc, <- Heq.
      * apply Forall_cons. split; [|done]. by exists buffer, w.
      * done.
    + destruct (IH sentences (buffer ++ [w]) Hws Hb')
        as (closed & rest & Hfold & Heq & Hclosed & Hrest);
        [by apply never_closed_snoc|].
      exists closed, rest. split_and!; [done| |done..].
      rewrite <- Heq. by rewrite <- app_assoc.
Qed.

(** The sentences of a text are the buffers closed while reading its
    words, and the buffer left open after the last one unless empty. *)
Lemma sentences_blocks (result_text : str) :
  ∃ closed rest,
    split result_text = concat closed ++ rest ∧
    Forall closed_at_last closed ∧
    never_closed rest ∧
    sentences result_text
      = (join [SP] <$> closed) ++ (if nonempty rest then [join [SP] rest] else []).
Proof.
  destruct (sentences_loop (split result_text) [] [])
    as (closed & rest & Hfold & Heq & Hclosed & Hrest);
    [apply split_words|done|apply never_closed_nil|].
  exists closed, rest. split_and!; [done..|].
  unfold sentences, sentences_of_words. rewrite Hfold. simpl.
  destruct rest as [|w rest]; simpl; [by rewrite app_nil_r|].
  apply append_sentence_words; [done|].
  pose proof (split_words result_text) as Hws. simpl in Heq.
  rewrite Heq in Hws. by apply Forall_app in Hws as [_ ?].
Qed.

Lemma closed_at_last_nonempty buffer : closed_at_last buffer → buffer ≠ [].
Proof. intros (p & w & -> & _). by destruct p. Qed.

(** The blocks of words behind the sentences: they are not empty, they
    are made of words, and together they are the words of the text. *)
Lemma sentences_word_blocks (result_text : str) :
  ∃ blocks,
    sentences result_text = join [SP] <$> blocks ∧
    concat blocks = split result_text ∧
    Forall (λ b, b ≠ [] ∧ Forall word b) blocks.
Proof.
  destruct (sentences_blocks result_text)
    as (closed & rest & Heq & Hclosed & _ & Hs).
  pose proof (split_words result_text) as Hws. rewrite Heq in Hws.
  apply Forall_app in Hws as [Hcw Hrw].
  exists (closed ++ if nonempty rest then [rest] else []). split_and!.
  - rewrite Hs, fmap_app. by destruct rest.
  - rewrite Heq, concat_app. destruct rest; simpl; by rewrite ?app_nil_r.
  - apply Forall_app. split.
    + apply Forall_forall. intros b Hb. split.
      * apply closed_at_last_nonempty.
        by apply (proj1 (Forall_forall _ _) Hclosed).
      * apply Forall_forall. intros w Hw.
        apply (proj1 (Forall_forall _ _) Hcw).
        apply list_elem_of_In, in_concat. exists b.
        by split; apply list_elem_of_In.
    + destruct rest; simpl; [done|]. by apply Forall_singleton.
Qed.

End SentenceFacts.

(** ** The unique words *)

Section UniqueFacts.
Context {db : UnicodeDB}.

Lemma first_occurrences_snoc before ws w :
  first_occurrences before (ws ++ [w])
  = first_occurrences before ws
    ++ if decide (first_occurrence (before ++ ws) w) then [w] else [].
Proof.
  revert before. induction ws as [|a ws IH]; intros before; simpl.
  - by rewrite !app_nil_r.
  - rewrite IH. by rewrite <- !app_assoc.
Qed.

Lemma first_occurrences_keys before ws k :
  k ∈ clean_word <$> first_occurrences before ws →
  k ≠ [] ∧ k ∉ clean_word <$> before.
Proof.
  revert before. induction ws as [|a ws IH]; intros before; simpl.
  - by intros ?%elem_of_nil.
  - rewrite fmap_app, elem_of_app. intros [Hk|Hk].
    + destruct (decide (first_occurrence before a)) as [[? ?]|]; simpl in Hk.
      * by apply list_elem_of_singleton in Hk as ->.
      * by apply elem_of_nil in Hk.
    + destruct (IH _ Hk) as [? Hn]. split; [done|].
      intros Hb. apply Hn. rewrite fmap_app, elem_of_app. by left.
Qed.

Lemma first_occurrences_NoDup before ws :
  NoDup (clean_word <$> first_occurrences before ws).
Proof.
  revert before. induction ws as [|a ws IH]; intros before; simpl.
  - constructor.
  - destruct (decide (first_occurrence before a)); simpl; [|done].
    apply NoDup_cons. split; [|done].
    intros [_ Hn]%first_occurrences_keys. apply Hn.
    rewrite fmap_app, elem_of_app. right. simpl. apply list_elem_of_here.
Qed.

Lemma first_occurrences_sublist before ws :
  first_occurrences before ws `sublist_of` ws.
Proof.
  revert before. induction ws as [|a ws IH]; intros before; simpl; [done|].
  destruct (decide (first_occurrence before a)); simpl.
  - by apply sublist_skip.
  - by apply sublist_cons.
Qed.

(** Where a first occurrence stands. *)
Lemma first_occurrences_elem before ws w :
  w ∈ first_occurrences before ws ↔
  ∃ ws1 ws2, ws = ws1 ++ w :: ws2 ∧ first_occurrence (before ++ ws1) w.
Proof.
  revert before. induction ws as [|a ws IH]; intros before; simpl.
  - split; [by intros ?%elem_of_nil|]. intros (ws1 & ws2 & ? & _).
    by destruct ws1.
  - rewrite elem_of_app, IH. split.
    + intros [Hw|(ws1 & ws2 & -> & Hw)].
      * destruct (decide (first_occurrence before a)); simpl in Hw.
        -- apply list_elem_of_singleton in Hw as ->.
           exists [], ws. by rewrite app_nil_r.
        -- by apply elem_of_nil in Hw.
      * exists (a :: ws1), ws2. split; [done|]. by rewrite <- app_assoc in Hw.
    + intros (ws1 & ws2 & Heq & Hw). destruct ws1 as [|b ws1].
      * injection Heq as -> ->. rewrite app_nil_r in Hw. left.
        rewrite decide_True by done. apply list_elem_of_here.
      * injection Heq as -> ->. right. exists ws1, ws2. split; [done|].
        by rewrite <- app_assoc.
Qed.

Context {py_set : SeenSet}.

(** The state of the loop after the words [before]. *)
Definition unique_state (before : list str) (st : seen_set * list str) : Prop :=
  (∀ k, k ≠ [] →
     set_contains k st.1 = bool_decide (k ∈ clean_word <$> before)) ∧
  st.2 = first_occurrences [] before.

Lemma unique_state_new : unique_state [] (set_new, []).
Proof.
  split; [|done]. intros k _. simpl. by rewrite set_contains_new.
Qed.

Lemma unique_state_step before st w :
  unique_state before st →
  unique_state (before ++ [w]) (unique_words_step st w).
Proof.
  destruct st as [seen_words unique]. intros [Hseen Hunique].
  simpl in Hseen, Hunique. unfold unique_words_step.
  destruct (nonempty (clean_word w)
            && negb (set_contains (clean_word w) seen_words)) eqn:Hkeep.
  - apply andb_prop in Hkeep as [Hne Hnew].
    assert (clean_word w ≠ []) as Hne' by (by destruct (clean_word w)).
    apply negb_true_iff in Hnew. rewrite Hseen in Hnew by done.
    apply bool_decide_eq_false in Hnew.
    split; simpl.
    + intros k Hk. rewrite set_contains_add, Hseen by done.
      rewrite <- bool_decide_or. apply bool_decide_ext.
      rewrite fmap_app, elem_of_app. simpl. rewrite list_elem_of_singleton.
      tauto.
    + rewrite first_occurrences_snoc, Hunique. simpl.
      by rewrite decide_True.
  - split; simpl.
    + intros k Hk. rewrite Hseen by done. apply bool_decide_ext.
      rewrite fmap_app, elem_of_app. simpl. rewrite list_elem_of_singleton.
      split; [tauto|]. intros [?| ->]; [done|].
      destruct (clean_word w) eqn:E; [done|]. simpl in Hkeep.
      apply negb_false_iff in Hkeep. rewrite Hseen in Hkeep by done.
      by apply bool_decide_eq_true in Hkeep.
    + rewrite first_occurrences_snoc, Hunique. simpl.
      rewrite decide_False; [by rewrite app_nil_r|].
      intros [Hne Hnew]. destruct (clean_word w) eqn:E; [done|].
      simpl in Hkeep. apply negb_false_iff in Hkeep.
      rewrite Hseen in Hkeep by done.
      by apply bool_decide_eq_true in Hkeep.
Qed.

Lemma unique_state_words words : ∀ before st,
  unique_state before st →
  unique_state (before ++ words) (fold_left unique_words_step words st).
Proof.
  induction words as [|w words IH]; intros before st Hst; simpl.
  - by rewrite app_nil_r.
  - change (w :: words) with ([w] ++ words). rewrite app_assoc.
    by apply IH, unique_state_step.
Qed.

Lemma unique_state_lines text_lines : ∀ before st,
  unique_state before st →
  unique_state (before ++ concat (split <$> text_lines))
    (fold_left (λ st line, fold_left unique_words_step (split line) st)
       text_lines st).
Proof.
  induction text_lines as [|line text_lines IH]; intros before st Hst; simpl.
  - by rewrite app_nil_r.
  - rewrite app_assoc. by apply IH, unique_state_words.
Qed.

(** The unique words do not depend on the set that finds them. *)
Lemma unique_words_first_occurrences text_lines :
  unique_words text_lines
  = first_occurrences [] (concat (split <$> text_lines)).
Proof.
  apply (unique_state_lines text_lines [] (set_new, [])), unique_state_new.
Qed.

End UniqueFacts.

(** ** The text lines *)

Section LineFacts.
Context {db : UnicodeDB}.

Lemma startswith_prefix p s : startswith p s = true ↔ p `prefix_of` s.
Proof.
  revert s. induction p as [|a p IH]; intros s; simpl.
  - split; [intros _; apply prefix_nil|done].
  - destruct s as [|c s].
    + split; [done|]. by intros ?%prefix_nil_inv.
    + rewrite andb_true_iff, IH, N.eqb_eq. split.
      * intros [-> ?]. by apply prefix_cons.
      * intros Hp. split; [by apply prefix_cons_inv_1 in Hp|].
        by apply prefix_cons_inv_2 in Hp.
Qed.

Lemma contains_infix sub s :
  contains sub s = true ↔ ∃ before after, s = before ++ sub ++ after.
Proof.
  induction s as [|c s IH]; simpl.
  - rewrite orb_false_r, startswith_prefix. split.
    + intros [k ->]. by exists [], k.
    + intros (before & after & Heq). symmetry in Heq.
      apply app_eq_nil in Heq as [_ [-> _]%app_eq_nil]. done.
  - rewrite orb_true_iff, startswith_prefix, IH. split.
    + intros [[k ->]|(before & after & ->)].
      * by exists [], k.
      * by exists (c :: before), after.
    + intros ([|a before] & after & Heq).
      * left. exists after. done.
      * right. injection Heq as -> ->. by exists before, after.
Qed.

Lemma str_isdigit_spec s :
  str_isdigit s = true ↔ s ≠ [] ∧ Forall (λ c, isdigit c = true) s.
Proof.
  destruct s as [|c s]; [by split; [|intros [? _]]|].
  unfold str_isdigit. rewrite forallb_forall, Forall_forall.
  split; [intros Hs; split; [done|]|intros [_ Hs]];
    intros x Hx; apply Hs; by apply list_elem_of_In.
Qed.

Lemma kept_lineb_spec prefixes line :
  kept_lineb prefixes line = true ↔ kept_line prefixes line.
Proof.
  unfold kept_lineb, kept_line.
  rewrite !andb_true_iff, !negb_true_iff, Nat.ltb_lt, forallb_forall.
  rewrite <- !not_true_iff_false, contains_infix, str_isdigit_spec.
  assert (nonempty line = true ↔ line ≠ []) as -> by (by destruct line).
  assert ((∀ p, In p prefixes → negb (startswith p line) = true)
          ↔ ∀ p, p ∈ prefixes → ¬ p `prefix_of` line) as ->; [|tauto].
  apply forall_proper. intros p.
  by rewrite list_elem_of_In, negb_true_iff, <- not_true_iff_false,
    startswith_prefix.
Qed.

(** The test of the loop is the rule, for the marks of the program. *)
Lemma keeps_kept_lineb line : keeps line = kept_lineb header_marks line.
Proof.
  unfold keeps, kept_lineb, skipped, header_marks. cbn [forallb].
  destruct (nonempty line), (startswith (py "WEBVTT") line),
    (startswith (py "Kind:") line), (startswith (py "Language:") line),
    (contains (py "-->") line), (str_isdigit line); done.
Qed.

Lemma keeps_kept_line line : keeps line = true ↔ kept_line header_marks line.
Proof. rewrite keeps_kept_lineb. apply kept_lineb_spec. Qed.

(** One round of the loop. *)
Lemma text_lines_step_keeps text_lines raw :
  text_lines_step text_lines raw
  = text_lines ++ if keeps (strip raw) then [clean_line (strip raw)] else [].
Proof.
  unfold text_lines_step, keeps. fold (clean_line (strip raw)).
  destruct (skipped (strip raw)); simpl; [by rewrite app_nil_r|].
  destruct (clean_line (strip raw)) as [|a [|b [|c r]]]; simpl;
    by rewrite ?app_nil_r.
Qed.

Lemma text_lines_loop lines : ∀ text_lines,
  fold_left text_lines_step lines text_lines
  = text_lines ++ (clean_line <$> List.filter keeps (strip <$> lines)).
Proof.
  induction lines as [|raw lines IH]; intros text_lines; simpl.
  - by rewrite app_nil_r.
  - rewrite IH, text_lines_step_keeps, <- app_assoc.
    by destruct (keeps (strip raw)).
Qed.

Lemma text_lines_filter vtt_content :
  text_lines vtt_content
  = clean_line <$> List.filter keeps (strip <$> split_on LF vtt_content).
Proof. apply text_lines_loop. Qed.

(** [str.split] on a separator *)

Lemma split_on_from_nosep sep cur w s :
  sep ∉ w → split_on_from sep cur (w ++ s) = split_on_from sep (cur ++ w) s.
Proof.
  revert cur. induction w as [|c w IH]; intros cur Hw; simpl.
  - by rewrite app_nil_r.
  - apply not_elem_of_cons in Hw as [Hc Hw].
    rewrite (proj2 (N.eqb_neq c sep)) by done.
    rewrite IH by done. by rewrite <- app_assoc.
Qed.

Lemma split_on_join sep lines :
  lines ≠ [] → Forall (λ l, sep ∉ l) lines →
  split_on sep (join [sep] lines) = lines.
Proof.
  unfold split_on. intros Hne Hl.
  induction Hl as [|l lines Hl Hlines IH]; [done|].
  destruct lines as [|l' lines].
  - simpl. rewrite <- (app_nil_r l) at 1.
    rewrite split_on_from_nosep by done. done.
  - change (join [sep] (l :: l' :: lines))
      with (l ++ sep :: join [sep] (l' :: lines)).
    rewrite split_on_from_nosep by done. cbn [app split_on_from].
    rewrite N.eqb_refl. by rewrite IH.
Qed.

(** Tags *)

Lemma tagfree_app_l s k : tagfree (s ++ k) → tagfree s.
Proof.
  induction s as [|c s IH]; simpl; [done|]. intros [Hc Hs]. split; [|by apply IH].
  intros Hlt Hgt. apply Hc; [done|]. apply elem_of_app. by left.
Qed.

Lemma tagfree_app_r k s : tagfree (k ++ s) → tagfree s.
Proof. induction k as [|c k IH]; simpl; [done|]. intros [_ ?]. by apply IH. Qed.

Lemma re_sub_tags_from_GT in_tag s :
  GT ∈ re_sub_tags_from in_tag s → GT ∈ s.
Proof.
  revert in_tag. induction s as [|c s IH]; intros in_tag; simpl; [done|].
  destruct in_tag.
  - intros ?%IH. by apply elem_of_cons; right.
  - destruct ((c =? LT) && existsb (N.eqb GT) s).
    + intros ?%IH. by apply elem_of_cons; right.
    + intros [->|?%IH]%elem_of_cons; apply elem_of_cons; [by left|by right].
Qed.

Lemma existsb_GT s : existsb (N.eqb GT) s = true ↔ GT ∈ s.
Proof.
  rewrite existsb_exists. split.
  - intros (x & Hx & ->%N.eqb_eq). by apply list_elem_of_In.
  - intros Hs. exists GT. split; [by apply list_elem_of_In|apply N.eqb_refl].
Qed.

Lemma re_sub_tags_from_tagfree in_tag s : tagfree (re_sub_tags_from in_tag s).
Proof.
  revert in_tag. induction s as [|c s IH]; intros in_tag; simpl; [done|].
  destruct in_tag; [done|].
  destruct (c =? LT) eqn:Hc; simpl.
  - destruct (existsb (N.eqb GT) s) eqn:Hgt; [done|]. simpl. split; [|done].
    intros _ Hin%re_sub_tags_from_GT. apply existsb_GT in Hin. congruence.
  - split; [|done]. intros ->. by rewrite N.eqb_refl in Hc.
Qed.

Lemma re_sub_tags_id s : tagfree s → re_sub_tags s = s.
Proof.
  unfold re_sub_tags. induction s as [|c s IH]; simpl; [done|].
  intros [Hc Hs]. rewrite IH by done.
  destruct (c =? LT) eqn:Hlt; simpl; [|done].
  apply N.eqb_eq in Hlt.
  destruct (existsb (N.eqb GT) s) eqn:Hgt; [|done].
  apply existsb_GT in Hgt. by destruct (Hc Hlt).
Qed.

(** Whitespace *)

Lemma re_sub_ws_from_elem in_run s c :
  c ∈ re_sub_ws_from in_run s → c = SP ∨ (c ∈ s ∧ isspace c = false).
Proof.
  revert in_run. induction s as [|a s IH]; intros in_run; simpl.
  - by intros ?%elem_of_nil.
  - assert (∀ b, c ∈ re_sub_ws_from b s →
                 c = SP ∨ (c ∈ a :: s ∧ isspace c = false)) as IH'.
    { intros b [->|[? ?]]%IH; [by left|right]. split; [by apply elem_of_cons; right|done]. }
    destruct (isspace a) eqn:Ha.
    + destruct in_run; [by apply IH'|].
      intros [->|?]%elem_of_cons; [by left|by apply (IH' true)].
    + intros [->|?]%elem_of_cons; [|by apply (IH' false)].
      right. split; [apply list_elem_of_here|done].
Qed.

Lemma re_sub_ws_from_tagfree in_run s :
  tagfree s → tagfree (re_sub_ws_from in_run s).
Proof.
  revert in_run. induction s as [|a s IH]; intros in_run; simpl; [done|].
  intros [Ha Hs]. destruct (isspace a).
  - destruct in_run; [by apply IH|]. simpl. split; [done|by apply IH].
  - simpl. split; [|by apply IH].
    intros Hlt [?|[? _]]%re_sub_ws_from_elem; [done|by apply Ha].
Qed.

Lemma collapsed_weaken in_run s : collapsed in_run s → collapsed false s.
Proof.
  destruct s as [|c s]; simpl; [done|].
  destruct (isspace c); [|done]. by intros (-> & _ & ?).
Qed.

Lemma re_sub_ws_from_collapsed in_run s :
  collapsed in_run (re_sub_ws_from in_run s).
Proof.
  revert in_run. induction s as [|a s IH]; intros in_run; simpl; [done|].
  destruct (isspace a) eqn:Ha.
  - destruct in_run; [done|]. simpl. by rewrite isspace_SP.
  - simpl. rewrite Ha. destruct in_run; [|done].
    (* after a run, the next character is not whitespace *)
    done.
Qed.

Lemma re_sub_ws_from_id in_run s :
  collapsed in_run s → re_sub_ws_from in_run s = s.
Proof.
  revert in_run. induction s as [|a s IH]; intros in_run; simpl; [done|].
  destruct (isspace a).
  - intros (-> & -> & Hs). by rewrite IH.
  - intros Hs. by rewrite IH.
Qed.

Lemma collapsed_app_l in_run s k : collapsed in_run (s ++ k) → collapsed in_run s.
Proof.
  revert in_run. induction s as [|c s IH]; intros in_run; simpl; [done|].
  destruct (isspace c).
  - intros (-> & -> & Hs). split_and!; [done..|by apply IH].
  - apply IH.
Qed.

Lemma collapsed_app_r in_run k s : collapsed in_run (k ++ s) → collapsed false s.
Proof.
  revert in_run. induction k as [|c k IH]; intros in_run; simpl.
  - apply collapsed_weaken.
  - destruct (isspace c); [intros (_ & _ & Hs)|intros Hs]; by apply IH in Hs.
Qed.

End LineFacts.

(** ** Clean lines, cleaned again *)

Section CleanLineFacts.
Context {db : UnicodeDB}.

Lemma strip_elem s c : c ∈ strip s → c ∈ s.
Proof.
  destruct (strip_infix s) as (a & b & Heq). intros Hc. rewrite Heq.
  apply elem_of_app. right. apply elem_of_app. by left.
Qed.

Lemma clean_line_stripped line : stripped (clean_line line).
Proof. apply strip_stripped. Qed.

Lemma clean_line_tagfree line : tagfree (clean_line line).
Proof.
  unfold clean_line.
  destruct (strip_infix (re_sub_ws (re_sub_tags line))) as (a & b & Heq).
  pose proof (re_sub_ws_from_tagfree false (re_sub_tags line)
                (re_sub_tags_from_tagfree false line)) as Ht.
  fold (re_sub_ws (re_sub_tags line)) in Ht. rewrite Heq in Ht.
  by apply tagfree_app_r, tagfree_app_l in Ht.
Qed.

Lemma clean_line_collapsed line : collapsed false (clean_line line).
Proof.
  unfold clean_line.
  destruct (strip_infix (re_sub_ws (re_sub_tags line))) as (a & b & Heq).
  pose proof (re_sub_ws_from_collapsed false (re_sub_tags line)) as Hc.
  fold (re_sub_ws (re_sub_tags line)) in Hc. rewrite Heq in Hc.
  by apply collapsed_app_r, collapsed_app_l in Hc.
Qed.

Lemma clean_line_no_LF line : LF ∉ clean_line line.
Proof.
  intros [Heq|[_ Hs]]%strip_elem%re_sub_ws_from_elem; [done|].
  by rewrite isspace_LF in Hs.
Qed.

Lemma clean_line_fixed line : clean_line (clean_line line) = clean_line line.
Proof.
  unfold clean_line at 1.
  rewrite re_sub_tags_id by apply clean_line_tagfree.
  unfold re_sub_ws. rewrite re_sub_ws_from_id by apply clean_line_collapsed.
  apply strip_id, clean_line_stripped.
Qed.

(** The clean lines among the lines [lines], once more through the loop. *)
Lemma text_lines_again lines :
  clean_line <$> List.filter keeps
    (strip <$> (clean_line <$> List.filter keeps lines))
  = List.filter (λ c, negb (skipped c)) (clean_line <$> List.filter keeps lines).
Proof.
  induction lines as [|line lines IH]; simpl; [done|].
  destruct (keeps line) eqn:Hk; [|done]. simpl.
  rewrite (strip_id (clean_line line)) by apply clean_line_stripped.
  unfold keeps at 1. rewrite clean_line_fixed.
  apply andb_prop in Hk as [_ ->]. rewrite andb_true_r.
  destruct (skipped (clean_line line)); simpl; [done|].
  f_equal; [apply clean_line_fixed|apply IH].
Qed.

End CleanLineFacts.

(** ** The segments *)

Section SegmentFacts.
Context {db : UnicodeDB} {num : PyNum}.

Lemma truediv_nonzero a b : b ≠ 0%Z → truediv a b = Ok (int_true_div a b).
Proof. intros Hb. unfold truediv. by rewrite (proj2 (Z.eqb_neq b 0)). Qed.

(** The loop over the sentences the program makes, from any index: no
    sentence is passed over, and no division is by zero. *)
Lemma segments_from_sentences n rest : ∀ i segs,
  (i + length rest = n)%nat →
  Forall (λ s, stripped s ∧ s ≠ []) rest →
  segments_from n i rest segs
  = Ok (segs ++ imap (λ j, segment_at n (i + j)) rest).
Proof.
  induction rest as [|sentence rest IH]; intros i segs Hn Hrest; simpl.
  - by rewrite app_nil_r.
  - apply Forall_cons in Hrest as [[Hs Hne] Hrest]. simpl in Hn.
    rewrite (strip_id sentence Hs).
    destruct sentence as [|c sentence]; [done|]. simpl.
    rewrite !truediv_nonzero by lia. simpl.
    rewrite IH by (done || lia). f_equal.
    rewrite <- app_assoc. f_equal. simpl. f_equal.
    + unfold segment_at. by rewrite Nat.add_0_r.
    + apply imap_ext. intros j s _. simpl. f_equal. lia.
Qed.

Lemma sentences_stripped result_text :
  Forall (λ s, stripped s ∧ s ≠ []) (sentences result_text).
Proof.
  destruct (sentences_word_blocks result_text) as (blocks & -> & _ & Hb).
  apply Forall_fmap. eapply Forall_impl; [exact Hb|].
  intros b [Hne Hws]. simpl. split.
  - by apply join_words_stripped.
  - by apply join_nonempty.
Qed.

Lemma segments_sentences result_text :
  let sentences := sentences result_text in
  segments sentences = Ok (imap (segment_at (length sentences)) sentences).
Proof.
  apply (segments_from_sentences _ _ 0%nat []); [done|].
  apply sentences_stripped.
Qed.

Context {py_set : SeenSet}.

(** The function returns, with the segments of its sentences. *)
Lemma aggressive_clean_vtt_segments vtt_content :
  let sentences :=
    sentences (result_text (unique_words (text_lines vtt_content))) in
  aggressive_clean_vtt vtt_content
  = Ok (if nonempty (text_lines vtt_content)
        then imap (segment_at (length sentences)) sentences
        else []).
Proof.
  unfold aggressive_clean_vtt.
  destruct (text_lines vtt_content); [done|]. apply segments_sentences.
Qed.

End SegmentFacts.

(** ** The segments cover the duration *)

Section CoverFacts.
Context {db : UnicodeDB} {num : PyNum}.

(** The segments of the sentences of a text, in any arithmetic: as many
    as the sentences, each with its text and its two quotients, each
    ending where the next starts, each with the difference of its ends
    as duration; and from 0 to 144 when these two quotients are exact. *)
Lemma segments_cover (result_text : str) :
  let sentences := sentences result_text in
  let n := length sentences in
  sentences ≠ [] →
  int_true_div 0 (Z.of_nat n) = float_of_int 0 →
  int_true_div (Z.of_nat n * 144) (Z.of_nat n) = float_of_int 144 →
  ∃ segs,
    segments sentences = Ok segs ∧
    length segs = n ∧
    (∀ i sentence, sentences !! i = Some sentence →
       ∃ seg, segs !! i = Some seg ∧
         text seg = sentence ∧
         start seg = int_true_div (Z.of_nat i * 144) (Z.of_nat n) ∧
         end_ seg = int_true_div ((Z.of_nat i + 1) * 144) (Z.of_nat n)) ∧
    (∀ seg, head segs = Some seg → start seg = float_of_int 0) ∧
    (∀ seg, last segs = Some seg → end_ seg = float_of_int 144) ∧
    (∀ i a b, segs !! i = Some a → segs !! S i = Some b → end_ a = start b) ∧
    Forall (λ seg, duration seg = float_sub (end_ seg) (start seg)) segs.
Proof.
  intros sentences n Hne Hzero Hfull.
  exists (imap (segment_at n) sentences). split_and!.
  - apply segments_sentences.
  - apply length_imap.
  - intros i sentence Hi. exists (segment_at n i sentence).
    rewrite list_lookup_imap, Hi. done.
  - intros seg. destruct sentences as [|s0 rest] eqn:E; [done|].
    simpl. intros [= <-]. simpl. exact Hzero.
  - intros seg. destruct sentences as [|s rest _] using rev_ind; [done|].
    rewrite imap_app. cbn [imap]. rewrite last_snoc. intros [= <-]. simpl.
    rewrite <- Hfull. f_equal. subst n. rewrite length_app. simpl.
    unfold total_duration. lia.
  - intros i a b. rewrite !list_lookup_imap.
    intros (s & _ & ->)%fmap_Some (s' & _ & ->)%fmap_Some. simpl.
    f_equal. lia.
  - apply Forall_lookup. intros i seg. rewrite list_lookup_imap.
    by intros (s & _ & ->)%fmap_Some.
Qed.

End CoverFacts.

(** The two quotients are exact in exact arithmetic, for every count. *)
Lemma exact_quotients (n : nat) :
  n ≠ 0%nat →
  @int_true_div exact_num 0 (Z.of_nat n) = float_of_int 0 ∧
  @int_true_div exact_num (Z.of_nat n * 144) (Z.of_nat n) = float_of_int 144.
Proof.
  intros Hn. assert (inject_Z (Z.of_nat n) == 0 → False)%Q as Hq.
  { unfold Qeq. simpl. lia. }
  split; apply Qc_is_canon; simpl.
  - rewrite !Qred_correct. unfold Qeq. simpl. done.
  - rewrite !Qred_correct, inject_Z_mult. field. exact Hq.
Qed.

(** ** Quotients in binary64 *)

Section Binary64Facts.
Local Open Scope Z_scope.

Lemma Zpos_iter_xO p k : Zpos (Pos.iter xO p k) = Zpos p * 2 ^ Zpos k.
Proof.
  induction k as [|k IH] using Pos.peano_ind.
  - simpl. lia.
  - rewrite Pos.iter_succ, Pos2Z.inj_succ, Z.pow_succ_r by lia.
    rewrite Pos2Z.inj_xO, IH. lia.
Qed.

Lemma digits2_pos_iter_xO p k :
  digits2_pos (Pos.iter xO p k) = (digits2_pos p + k)%positive.
Proof.
  induction k as [|k IH] using Pos.peano_ind.
  - simpl. lia.
  - rewrite Pos.iter_succ. simpl. rewrite IH. lia.
Qed.

Lemma digits2_pos_bounds p :
  2 ^ (Zpos (digits2_pos p) - 1) ≤ Zpos p < 2 ^ Zpos (digits2_pos p).
Proof.
  induction p as [p IH|p IH|]; simpl digits2_pos; [| |simpl; lia].
  - rewrite Pos2Z.inj_succ, (Pos2Z.inj_xI p).
    replace (Z.succ (Zpos (digits2_pos p)) - 1)
      with (Z.succ (Zpos (digits2_pos p) - 1)) by lia.
    rewrite !Z.pow_succ_r by lia. lia.
  - rewrite Pos2Z.inj_succ, (Pos2Z.inj_xO p).
    replace (Z.succ (Zpos (digits2_pos p)) - 1)
      with (Z.succ (Zpos (digits2_pos p) - 1)) by lia.
    rewrite !Z.pow_succ_r by lia. lia.
Qed.

Lemma digits2_pos_fits p : Zpos p < 2 ^ 53 → Zpos (digits2_pos p) ≤ 53.
Proof.
  intros Hp. pose proof (digits2_pos_bounds p) as [Hlo _].
  apply Z.lt_succ_r, Z.lt_pred_lt_succ, (Z.pow_lt_mono_r_iff 2); [lia..|].
  rewrite <- Z.sub_1_r. lia.
Qed.

(** Times 144, an integer gets seven or eight digits more. *)
Lemma digits2_pos_144 p :
  Zpos (digits2_pos (144 * p)) = Zpos (digits2_pos p) + 7
  ∨ Zpos (digits2_pos (144 * p)) = Zpos (digits2_pos p) + 8.
Proof.
  pose proof (digits2_pos_bounds p) as [Hlo Hhi].
  pose proof (digits2_pos_bounds (144 * p)) as [Hlo' Hhi'].
  set (d := Zpos (digits2_pos p)) in *.
  set (d' := Zpos (digits2_pos (144 * p))) in *.
  rewrite Pos2Z.inj_mul in Hlo', Hhi'.
  assert (0 < d) by (subst d; lia). assert (0 < d') by (subst d'; lia).
  assert (2 ^ (d + 6) < 2 ^ d') as Hl.
  { replace (d + 6) with ((d - 1) + 7) by lia.
    rewrite Z.pow_add_r by lia. change (2 ^ 7) with 128. lia. }
  assert (2 ^ (d' - 1) < 2 ^ (d + 8)) as Hu.
  { rewrite (Z.pow_add_r 2 d 8) by lia. change (2 ^ 8) with 256. lia. }
  apply Z.pow_lt_mono_r_iff in Hl, Hu; lia.
Qed.

(** A mantissa of 53 digits with an exponent in range is not rounded. *)
Lemma binary_round_aux_exact s m e :
  digits2_pos m = 53%positive → -1074 ≤ e ≤ 971 →
  binary_round_aux prec emax s (Zpos m) e loc_Exact = S754_finite s m e.
Proof.
  intros Hm He. unfold binary_round_aux, shr_fexp, Zdigits2. rewrite Hm.
  replace (fexp prec emax (53 + e) - e) with 0
    by (unfold fexp, SpecFloat.emin, prec, emax; lia).
  simpl. rewrite Hm.
  replace (fexp prec emax (53 + e) - e) with 0
    by (unfold fexp, SpecFloat.emin, prec, emax; lia).
  simpl. replace (e <=? emax - prec) with true; [done|].
  symmetry. apply Z.leb_le. unfold emax, prec. lia.
Qed.

(** The float of a positive integer of at most 53 digits is the integer:
    its mantissa takes the 53 digits. *)
Lemma binary_normalize_small p :
  Zpos (digits2_pos p) ≤ 53 →
  ∃ m, binary_normalize prec emax (Zpos p) 0 false
       = S754_finite false m (Zpos (digits2_pos p) - 53)
       ∧ digits2_pos m = 53%positive
       ∧ Zpos m = Zpos p * 2 ^ (53 - Zpos (digits2_pos p)).
Proof.
  intros Hd. unfold binary_normalize, binary_round.
  rewrite Z.add_0_r.
  replace (fexp prec emax (Zpos (digits2_pos p)))
    with (Zpos (digits2_pos p) - 53)
    by (unfold fexp, SpecFloat.emin, prec, emax; lia).
  unfold shl_align. rewrite Z.sub_0_r.
  destruct (Zpos (digits2_pos p) - 53) as [|k|k] eqn:Hk; [|lia|].
  - exists p. assert (digits2_pos p = 53%positive) as Hp by lia.
    rewrite binary_round_aux_exact by (done || lia).
    rewrite Hp. split; [done|]. split; [done|]. simpl. lia.
  - exists (Pos.iter xO p k).
    assert (digits2_pos (Pos.iter xO p k) = 53%positive) as Hp
      by (rewrite digits2_pos_iter_xO; lia).
    rewrite binary_round_aux_exact by (done || lia).
    split; [done|]. split; [done|].
    rewrite Zpos_iter_xO. f_equal. f_equal. lia.
Qed.

Lemma Prim2SF_of_int_small p :
  Zpos p < 2 ^ 53 →
  ∃ m, Prim2SF (binary64_of_int (Zpos p))
       = S754_finite false m (Zpos (digits2_pos p) - 53)
       ∧ digits2_pos m = 53%positive
       ∧ Zpos m = Zpos p * 2 ^ (53 - Zpos (digits2_pos p)).
Proof.
  intros Hd%digits2_pos_fits.
  destruct (binary_normalize_small p Hd) as (m & Heq & Hm & Hv).
  exists m. split; [|done]. unfold binary64_of_int.
  rewrite Heq. apply Prim2SF_SF2Prim.
  unfold valid_binary, bounded, canonical_mantissa. rewrite Hm.
  apply andb_true_intro. split; [apply Z.eqb_eq|apply Z.leb_le];
    unfold fexp, SpecFloat.emin, prec, emax; lia.
Qed.

Lemma div_eucl_exact q b : 0 < b → Z.div_eucl (q * b) b = (q, 0).
Proof.
  intros Hb. pose proof (Z.div_mul q b) as Hq. pose proof (Z.mod_mul q b) as Hr.
  unfold Z.div, Z.modulo in Hq, Hr.
  destruct (Z.div_eucl (q * b) b) as [q' r']. simpl in Hq, Hr.
  rewrite Hq, Hr by lia. done.
Qed.

(** The mantissa of a quotient that is an integer: nothing remains. *)
Lemma SFdiv_core_exact m1 e1 m2 e2 δ q :
  Zdigits2 m1 + e1 - (Zdigits2 m2 + e2) = δ → -100 ≤ δ < e1 - e2 + 53 →
  0 < m2 →
  m1 * 2 ^ (e1 - e2 - (δ - 53)) = q * m2 →
  SFdiv_core_binary prec emax m1 e1 m2 e2 = (q, δ - 53, loc_Exact).
Proof.
  intros Hd Hδ Hm2 Hq. unfold SFdiv_core_binary. rewrite Hd.
  replace (fexp prec emax δ) with (δ - 53)
    by (unfold fexp, SpecFloat.emin, prec, emax; lia).
  rewrite Z.min_l by lia.
  destruct (e1 - e2 - (δ - 53)) as [|s|s] eqn:Hs; [lia| |lia].
  rewrite Z.shiftl_mul_pow2, Hq, div_eucl_exact by lia.
  replace (new_location m2 0) with loc_Exact; [done|].
  unfold new_location. by destruct (Z.even m2).
Qed.

(** The two powers of two that scale [144 * p] to a multiple of [p]. *)
Lemma rounded_144 δ :
  δ = 7 ∨ δ = 8 →
  SF2Prim (binary_round_aux prec emax false (144 * 2 ^ (53 - δ)) (δ - 53)
             loc_Exact)
  = binary64_of_int 144 ∧
  binary_round_aux prec emax false (144 * 2 ^ (53 - δ)) (δ - 53) loc_Exact
  = Prim2SF (binary64_of_int 144).
Proof. intros [-> | ->]; split; by vm_compute. Qed.

(** The quotients of the first start and of the last end are exact in
    binary64, whatever the count. *)
Lemma binary64_quotients (n : Z) :
  1 ≤ n →
  @int_true_div binary64 0 n = float_of_int 0 ∧
  @int_true_div binary64 (n * 144) n = float_of_int 144.
Proof.
  intros Hn. destruct n as [|p|p]; [lia| |lia].
  change (Zpos p * 144) with (Zpos (p * 144)). rewrite Pos.mul_comm.
  cbn [int_true_div float_of_int binary64]. unfold binary64_true_div.
  pose proof (digits2_pos_144 p) as Hd.
  split.
  - destruct (fits53 0 && fits53 (Zpos p)) eqn:Hfit; [|done].
    apply andb_prop in Hfit as [_ Hp%Z.ltb_lt].
    destruct (Prim2SF_of_int_small p) as (m & Hy & _); [exact Hp|].
    apply Prim2SF_inj. by rewrite div_spec, Hy.
  - destruct (fits53 (Zpos (144 * p)) && fits53 (Zpos p)) eqn:Hfit.
    + apply andb_prop in Hfit as [Hp'%Z.ltb_lt Hp%Z.ltb_lt].
      destruct (Prim2SF_of_int_small p) as (m2 & Hy & Hm2 & Hv2); [exact Hp|].
      destruct (Prim2SF_of_int_small (144 * p)) as (m1 & Hx & Hm1 & Hv1);
        [exact Hp'|].
      apply Prim2SF_inj. rewrite div_spec, Hx, Hy.
      set (d := Zpos (digits2_pos p)) in *.
      set (d' := Zpos (digits2_pos (144 * p))) in *.
      assert (0 < d) by (subst d; lia).
      assert (d' ≤ 53) by (by apply digits2_pos_fits).
      unfold SF64div, SFdiv.
      rewrite (SFdiv_core_exact _ _ _ _ (d' - d) (144 * 2 ^ (53 - (d' - d)))).
      * by apply rounded_144; lia.
      * unfold Zdigits2. rewrite Hm1, Hm2. lia.
      * lia.
      * lia.
      * rewrite Hv1, Hv2, Pos2Z.inj_mul. fold d.
        replace (d' - 53 - (d - 53) - (d' - d - 53)) with 53 by lia.
        replace (2 ^ 53) with (2 ^ (53 - (d' - d)) * 2 ^ (d' - d))
          by (rewrite <- Z.pow_add_r by lia; f_equal; lia).
        replace (2 ^ (53 - d)) with (2 ^ (53 - d') * 2 ^ (d' - d))
          by (rewrite <- Z.pow_add_r by lia; f_equal; lia).
        ring.
    + unfold binary64_rounded_quotient.
      change (Z.abs (Zpos (144 * p))) with (Zpos (144 * p)).
      change (Z.abs (Zpos p)) with (Zpos p).
      cbn [Z.ltb Z.compare xorb].
      set (d := Zpos (digits2_pos p)) in *.
      set (d' := Zpos (digits2_pos (144 * p))) in *.
      rewrite (SFdiv_core_exact _ _ _ _ (d' - d) (144 * 2 ^ (53 - (d' - d)))).
      * by apply rounded_144; lia.
      * unfold Zdigits2. fold d d'. lia.
      * lia.
      * lia.
      * replace (0 - 0 - (d' - d - 53)) with (53 - (d' - d)) by lia.
        rewrite Pos2Z.inj_mul. ring.
Qed.

End Binary64Facts.

(** The rounded quotient is the quotient of the machine where both are
    defined, and the conversion rounds to even. *)
Example rounded_quotient_machine :
  Forall (λ ab : Z * Z,
            binary64_rounded_quotient ab.1 ab.2
            = (binary64_of_int ab.1 / binary64_of_int ab.2)%float)
    [(1, 3); (2, 3); (144, 7); (288, 7); (1008, 7); (5, -3); (-5, 3);
     (0, -5); (0, 5); (9007199254740991, 10); (1, 9007199254740991)]%Z.
Proof. repeat constructor. Qed.

Example binary64_of_int_ties :
  binary64_of_int (2 ^ 53 + 1) = 9007199254740992%float ∧
  binary64_of_int (2 ^ 53 + 3) = 9007199254740996%float.
Proof. split; by vm_compute. Qed.

(** * The claims *)

(** ** C1: the segments cover the duration *)

(** C1.  For the sentences the segmenter makes of any text, when there is
    at least one, and the floats of CPython: the synthesizer returns as
    many segments as sentences; the segment at index [i] holds sentence
    [i], starts at [i*144/N] and ends at [(i+1)*144/N]; the first starts
    at 0 and the last ends at 144; every segment ends where the next
    starts; and every [duration] is [end - start]. *)
Theorem segments_cover_duration {db : UnicodeDB} (result_text : str) :
  let sentences := sentences result_text in
  let n := length sentences in
  sentences ≠ [] →
  ∃ segs : list (segment float),
    segments sentences = Ok segs ∧
    length segs = n ∧
    (∀ i sentence, sentences !! i = Some sentence →
       ∃ seg, segs !! i = Some seg ∧
         text seg = sentence ∧
         start seg = binary64_true_div (Z.of_nat i * 144) (Z.of_nat n) ∧
         end_ seg = binary64_true_div ((Z.of_nat i + 1) * 144) (Z.of_nat n)) ∧
    (∀ seg, head segs = Some seg → start seg = 0%float) ∧
    (∀ seg, last segs = Some seg → end_ seg = 144%float) ∧
    (∀ i a b, segs !! i = Some a → segs !! S i = Some b → end_ a = start b) ∧
    Forall (λ seg, duration seg = (end_ seg - start seg)%float) segs.
Proof.
  intros sentences n Hne.
  destruct (binary64_quotients (Z.of_nat n)) as [Hzero Hfull].
  { subst n. destruct sentences; [done|]. simpl. lia. }
  exact (segments_cover (num:=binary64) result_text Hne Hzero Hfull).
Qed.

Lemma segments_cover_duration_witness :
  sentences three_sentences ≠ [] ∧
  ∃ segs : list (segment float),
    segments (sentences three_sentences) = Ok segs ∧
    length segs = 3%nat ∧
    (∀ seg, head segs = Some seg → start seg = 0%float) ∧
    (∀ seg, last segs = Some seg → end_ seg = 144%float) ∧
    (∀ i a b, segs !! i = Some a → segs !! S i = Some b → end_ a = start b) ∧
    Forall (λ seg, duration seg = (end_ seg - start seg)%float) segs.
Proof.
  split; [by vm_compute|].
  destruct (segments_cover_duration (db:=ascii_db) three_sentences)
    as (segs & Hsegs & Hlen & _ & Hfirst & Hlast & Hnext & Hdur);
    [by vm_compute|].
  exists segs. split_and!; done.
Defined.

(** ** C2: the unique words *)

(** C2.  The unique words of any text lines are the first occurrences
    among their words, read line by line and word by word: a word is
    kept exactly when its normalized key is not empty and is the key of
    no word before it.  Hence no two kept words have the same key, no
    kept word has an empty key, and the kept words stand in the order of
    the words. *)
Theorem unique_words_first_seen {db : UnicodeDB} {py_set : SeenSet}
    (text_lines : list str) :
  let words := concat (split <$> text_lines) in
  let kept := unique_words text_lines in
  kept = first_occurrences [] words ∧
  (∀ w, w ∈ kept ↔
        ∃ before after, words = before ++ w :: after ∧
          clean_word w ≠ [] ∧ clean_word w ∉ clean_word <$> before) ∧
  NoDup (clean_word <$> kept) ∧
  Forall (λ w, clean_word w ≠ []) kept ∧
  kept `sublist_of` words.
Proof.
  intros words kept. subst kept. rewrite unique_words_first_occurrences.
  fold words. split_and!.
  - done.
  - intros w. apply first_occurrences_elem.
  - apply first_occurrences_NoDup.
  - apply Forall_forall. intros w Hw.
    apply (first_occurrences_keys [] words).
    by apply list_elem_of_fmap_2.
  - apply first_occurrences_sublist.
Qed.

(** ** C3: no text, no segments, no error *)

(** C3.  The function raises on no payload, so no division by the number
    of sentences is by zero; and it returns the empty list of segments
    when no text line is left or no word of them is kept. *)
Theorem empty_input_safe {db : UnicodeDB} {py_set : SeenSet} {num : PyNum}
    (vtt_content : str) :
  (∃ segments, aggressive_clean_vtt vtt_content = Ok segments) ∧
  (text_lines vtt_content = [] ∨ unique_words (text_lines vtt_content) = [] →
   aggressive_clean_vtt vtt_content = Ok []).
Proof.
  rewrite aggressive_clean_vtt_segments. split; [by eexists|].
  intros [->| ->]; [done|]. by destruct (text_lines vtt_content).
Qed.

(** ** C4: where the sentences close *)

(** C4.  Reading the words of any text, the segmenter closes its buffer
    after a word exactly when that word ends with [.], [!] or [?], or
    the words of the buffer joined by spaces are longer than 50
    characters: the words of the text are the closed buffers, each
    meeting the test after its last word and after none before, and
    then a rest that meets it after none of its words; the sentences are
    the closed buffers and the rest, unless empty, joined by spaces; and
    no sentence is empty. *)
Theorem sentences_close_exactly {db : UnicodeDB} (result_text : str) :
  (∀ w buffer, closes w buffer = true ↔
     (∃ c, last w = Some c ∧ c ∈ py ".!?")
     ∨ (50 < length (join [SP] buffer))%nat) ∧
  ∃ closed rest,
    split result_text = concat closed ++ rest ∧
    Forall closed_at_last closed ∧
    never_closed rest ∧
    sentences result_text
      = (join [SP] <$> closed)
        ++ (if nonempty rest then [join [SP] rest] else []) ∧
    Forall (λ sentence, sentence ≠ []) (sentences result_text).
Proof.
  split.
  - intros w buffer. unfold closes, endswith_any.
    rewrite orb_true_iff, Nat.ltb_lt. apply or_iff_compat_r.
    destruct (last w) as [c|]; [|by split; [|intros (? & ? & _)]].
    rewrite existsb_exists. split.
    + intros (x & Hx & <-%N.eqb_eq). exists c. split; [done|].
      by apply list_elem_of_In.
    + intros (? & [= <-] & Hc). exists c.
      split; [by apply list_elem_of_In|apply N.eqb_refl].
  - destruct (sentences_blocks result_text)
      as (closed & rest & Hwords & Hclosed & Hrest & Hs).
    exists closed, rest. split_and!; [done..|].
    eapply Forall_impl; [apply sentences_stripped|]. by intros s [_ ?].
Qed.

(** ** C5: the rule of the text lines *)

(** C5, as amended.  The text lines of any payload are the clean forms
    of the stripped lines that the rule keeps, in the order of the
    lines, which are the pieces of the payload between its newlines; and
    the rule keeps a stripped line exactly when it is not empty, starts
    with none of the three header marks [WEBVTT], [Kind:] and
    [Language:], holds no [-->], is not made of digits only, and its
    clean form (tags removed, whitespace collapsed, stripped) is longer
    than two characters. *)
Theorem text_lines_rule {db : UnicodeDB} (vtt_content : str) :
  let lines := split_on LF vtt_content in
  join [LF] lines = vtt_content ∧
  text_lines vtt_content
  = clean_line <$> List.filter keeps (strip <$> lines) ∧
  (∀ line, keeps line = true ↔ kept_line header_marks line).
Proof.
  split_and!;
    [apply join_split_on|apply text_lines_filter|apply keeps_kept_line].
Qed.

(** ** C6: clean lines through the loop again *)

(** C6, as amended.  The text lines of any payload, joined by newlines
    and read again, give those of them that the first test of the loop
    does not skip, unchanged and in order: the same lines when none
    starts with a header mark, holds [-->] or is made of digits only. *)
Theorem text_lines_again_unskipped {db : UnicodeDB} (vtt_content : str) :
  let cleaned := text_lines vtt_content in
  text_lines (join [LF] cleaned)
  = List.filter (λ line, negb (skipped line)) cleaned ∧
  (Forall (λ line, skipped line = false) cleaned →
   text_lines (join [LF] cleaned) = cleaned).
Proof.
  intros cleaned.
  assert (text_lines (join [LF] cleaned)
          = List.filter (λ line, negb (skipped line)) cleaned) as Heq.
  { subst cleaned. rewrite (text_lines_filter (join _ _)).
    rewrite text_lines_filter.
    set (lines := List.filter keeps (strip <$> split_on LF vtt_content)).
    destruct (clean_line <$> lines) as [|c cs] eqn:E.
    { reflexivity. }
    rewrite <- E, split_on_join.
    - apply text_lines_again.
    - by rewrite E.
    - apply Forall_fmap, Forall_true. intros line. apply clean_line_no_LF. }
  split; [done|]. rewrite Heq. clear Heq.
  induction 1 as [|line lines Hline _ IH]; simpl; [done|].
  by rewrite Hline, IH.
Qed.

(** ** C9: one payload, one list of segments *)

(** C9.  Two runs on equal payloads return equal lists of segments,
    whatever sets the two runs use for the seen keys. *)
Theorem aggressive_clean_vtt_deterministic {db : UnicodeDB} {num : PyNum}
    (set1 set2 : SeenSet) (payload1 payload2 : str) :
  payload1 = payload2 →
  aggressive_clean_vtt (py_set:=set1) payload1
  = aggressive_clean_vtt (py_set:=set2) payload2.
Proof.
  intros <-. unfold aggressive_clean_vtt.
  by rewrite !unique_words_first_occurrences.
Qed.

(** ** C10: the sentences keep the words *)

(** C10.  The words of the sentences of any text, sentence after
    sentence, are the words of the text; so each sentence holds a block
    of consecutive words of the text, after the words of the sentences
    before it. *)
Theorem sentences_conserve_words {db : UnicodeDB} (result_text : str) :
  let sentences := sentences result_text in
  concat (split <$> sentences) = split result_text ∧
  (∀ i sentence, sentences !! i = Some sentence →
     ∃ after,
       split result_text
       = concat (split <$> take i sentences) ++ split sentence ++ after).
Proof.
  intros sentences.
  assert (concat (split <$> sentences) = split result_text) as Heq.
  { subst sentences.
    destruct (sentences_word_blocks result_text) as (blocks & Hs & Hc & Hb).
    rewrite Hs, <- Hc. f_equal. clear Hs Hc.
    induction Hb as [|b blocks [_ Hw] _ IH]; [done|].
    rewrite !fmap_cons, split_join by done. by rewrite IH. }
  split; [done|]. intros i sentence Hi.
  exists (concat (split <$> drop (S i) sentences)).
  rewrite <- Heq. rewrite <- (take_drop_middle sentences i sentence Hi) at 1.
  by rewrite fmap_app, concat_app.
Qed.

(** ** C5 and C6: what the amendments come from *)

(** C5 as the specification words it, with two header marks, fails on the
    program: whichever two of its three marks are taken, a line that
    starts with the third passes the rule and is not a text line. *)
Lemma text_lines_third_mark :
  (kept_line (db:=ascii_db) [py "Kind:"; py "Language:"]
     (strip (py "WEBVTT")) ∧
   text_lines (py "WEBVTT") = []) ∧
  (kept_line [py "WEBVTT"; py "Language:"] (strip (py "Kind: captions")) ∧
   text_lines (py "Kind: captions") = []) ∧
  (kept_line [py "WEBVTT"; py "Kind:"] (strip (py "Language: en")) ∧
   text_lines (py "Language: en") = []).
Proof.
  split_and!; try (by vm_compute); by apply kept_lineb_spec.
Qed.

(** More than that, no two header marks make the stated rule the rule of
    the program: it differs on one of four lines. *)
Lemma startswith_marks (p : str) :
  startswith p (py "abc") = true ∨
  (startswith p (py "WEBVTT") && startswith p (py "Kind:") = false ∧
   startswith p (py "WEBVTT") && startswith p (py "Language:") = false ∧
   startswith p (py "Kind:") && startswith p (py "Language:") = false).
Proof.
  destruct p as [|c p]; [by left|]. right.
  change (startswith (c :: p) (py "WEBVTT"))
    with ((c =? 87) && startswith p (py "EBVTT")).
  change (startswith (c :: p) (py "Kind:"))
    with ((c =? 75) && startswith p (py "ind:")).
  change (startswith (c :: p) (py "Language:"))
    with ((c =? 76) && startswith p (py "anguage:")).
  destruct (c =? 87) eqn:E1, (c =? 75) eqn:E2, (c =? 76) eqn:E3;
    simpl; rewrite ?andb_false_r; try done; exfalso;
    repeat match goal with H : (_ =? _) = true |- _ => apply N.eqb_eq in H end;
    lia.
Qed.

Lemma two_marks_never_suffice (p1 p2 : str) :
  ∃ line, line ∈ [py "WEBVTT"; py "Kind:"; py "Language:"; py "abc"] ∧
    kept_lineb (db:=ascii_db) [p1; p2] line ≠ keeps line.
Proof.
  assert (∀ line, line ≠ [] → contains (py "-->") line = false →
            str_isdigit line = false →
            (2 <? length (clean_line line))%nat = true →
            kept_lineb [p1; p2] line
            = negb (startswith p1 line) && negb (startswith p2 line)) as Hno.
  { intros line Hne H1 H2 H3. unfold kept_lineb. cbn [forallb].
    rewrite H1, H2, H3, !andb_true_r. by destruct line. }
  destruct (startswith_marks p1) as [Ha1|(Hwk1 & Hwl1 & Hkl1)].
  { exists (py "abc"). split; [by repeat constructor|].
    rewrite Hno by done. by rewrite Ha1. }
  destruct (startswith_marks p2) as [Ha2|(Hwk2 & Hwl2 & Hkl2)].
  { exists (py "abc"). split; [by repeat constructor|].
    rewrite Hno by done. rewrite Ha2. by rewrite andb_false_r. }
  destruct (startswith p1 (py "WEBVTT")) eqn:Hw1,
           (startswith p1 (py "Kind:")) eqn:Hk1,
           (startswith p1 (py "Language:")) eqn:Hl1; try done;
  destruct (startswith p2 (py "WEBVTT")) eqn:Hw2,
           (startswith p2 (py "Kind:")) eqn:Hk2,
           (startswith p2 (py "Language:")) eqn:Hl2; try done;
    first
      [ exists (py "WEBVTT"); split; [by repeat constructor|];
        rewrite Hno, Hw1, Hw2 by done; done
      | exists (py "Kind:"); split; [by repeat constructor|];
        rewrite Hno, Hk1, Hk2 by done; done
      | exists (py "Language:"); split; [by repeat constructor|];
        rewrite Hno, Hl1, Hl2 by done; done ].
Qed.

(** C6 as the specification words it fails on the program: the line
    [<c>123</c>] is cleaned to [123], which the loop skips as a number
    when it reads it again. *)
Lemma text_lines_again_loses_number :
  text_lines (db:=ascii_db) (py "<c>123</c>") = [py "123"] ∧
  text_lines (join [LF] (text_lines (py "<c>123</c>"))) = [].
Proof. split; by vm_compute. Qed.

(** ** C7: scenario A *)

(** C7.  On a payload whose text lines are [Hello hello world] and
    [world again], the unique words are [Hello], [world] and [again],
    the one sentence is [Hello world again], and the function returns
    the one segment of that text from 0 to 144, of duration 144. *)
Theorem scenario_A {py_set : SeenSet} (vtt_content : str) :
  text_lines (db:=ascii_db) vtt_content
    = [py "Hello hello world"; py "world again"] →
  unique_words (text_lines vtt_content)
    = [py "Hello"; py "world"; py "again"] ∧
  sentences (result_text (unique_words (text_lines vtt_content)))
    = [py "Hello world again"] ∧
  aggressive_clean_vtt (num:=binary64) vtt_content
    = Ok [ {| text := py "Hello world again";
              start := 0%float;
              end_ := 144%float;
              duration := 144%float |} ].
Proof.
  intros Hlines. unfold aggressive_clean_vtt.
  rewrite Hlines, unique_words_first_occurrences. by vm_compute.
Qed.

Lemma scenario_A_witness :
  text_lines (py "Hello hello world" ++ [LF] ++ py "world again")
    = [py "Hello hello world"; py "world again"] ∧
  aggressive_clean_vtt (py_set:=gset_seen) (num:=binary64)
      (py "Hello hello world" ++ [LF] ++ py "world again")
    = Ok [ {| text := py "Hello world again";
              start := 0%float;
              end_ := 144%float;
              duration := 144%float |} ].
Proof.
  split; [by vm_compute|].
  apply (scenario_A (py_set:=gset_seen)). by vm_compute.
Defined.

(** ** C8: the usage *)

(** C8.  Called with a number of arguments other than two, the program
    name apart, the process prints the usage to the error stream and
    exits with status 1: it extracts no information, opens no address
    and prints no segments. *)
Theorem main_usage {db : UnicodeDB} {py_set : SeenSet} {num : PyNum}
    {ydl : YoutubeDL} (argv : list str) :
  length argv ≠ 3%nat →
  main argv = ([Print_stderr usage], 1%Z).
Proof.
  intros Hargv. unfold main.
  by rewrite (proj2 (Nat.eqb_neq (length argv) 3) Hargv).
Qed.

Lemma main_usage_witness :
  length [py "clean_transcript.py"; demo_url] ≠ 3%nat ∧
  main (py_set:=gset_seen) (num:=binary64) (ydl:=demo_ydl)
    [py "clean_transcript.py"; demo_url]
  = ([Print_stderr usage], 1%Z).
Proof.
  split; [by vm_compute|]. apply main_usage. by vm_compute.
Defined.

(** With its two arguments, the process does retrieve and clean. *)
Example main_demo :
  main (py_set:=gset_seen) (num:=binary64) (ydl:=demo_ydl)
    [py "clean_transcript.py"; demo_url; py "en"]
  = ([Extract_info demo_url (py "en");
      Urlopen demo_vtt_url;
      Print_json [ {| text := py "Hello world again";
                      start := 0%float;
                      end_ := 144%float;
                      duration := 144%float |} ] ],
     0%Z).
Proof. by vm_compute. Qed.

Example main_demo_no_track :
  main (py_set:=gset_seen) (num:=binary64) (ydl:=demo_ydl)
    [py "clean_transcript.py"; demo_url; py "fr"]
  = ([Extract_info demo_url (py "fr");
      Print_stderr (py "Error: " ++ language_not_found (py "fr"))],
     1%Z).
Proof. by vm_compute. Qed.

(** ** Witnesses of C3 and C9 *)

Lemma empty_input_safe_witness :
  (text_lines (py "... !!!" ++ [LF] ++ py "?? --") ≠ [] ∧
   unique_words (py_set:=gset_seen)
     (text_lines (py "... !!!" ++ [LF] ++ py "?? --")) = []) ∧
  aggressive_clean_vtt (py_set:=gset_seen) (num:=binary64)
    (py "... !!!" ++ [LF] ++ py "?? --") = Ok [].
Proof.
  split; [split; by vm_compute|].
  apply empty_input_safe. right. by vm_compute.
Defined.

Example empty_payload :
  aggressive_clean_vtt (py_set:=gset_seen) (num:=binary64) [] = Ok [].
Proof. by vm_compute. Qed.

Example headers_only :
  aggressive_clean_vtt (py_set:=gset_seen) (num:=binary64)
    (join [LF] [py "WEBVTT"; py "Kind: captions"; py "Language: en"; [];
                py "1"; py "00:00:00.000 --> 00:00:02.000"; []])
  = Ok [].
Proof. by vm_compute. Qed.

Lemma aggressive_clean_vtt_deterministic_witness :
  demo_payload = demo_payload ∧
  aggressive_clean_vtt (py_set:=list_seen) (num:=binary64) demo_payload
  = aggressive_clean_vtt (py_set:=gset_seen) (num:=binary64) demo_payload.
Proof.
  split; [done|]. by apply aggressive_clean_vtt_deterministic.
Defined.

(** * Further properties *)

(** ** The command line *)

Section CommandLineFacts.
Context {db : UnicodeDB} {py_set : SeenSet} {num : PyNum} {ydl : YoutubeDL}.

Lemma find_formats_selects info language formats :
  find_formats info language = Some formats ↔ selects info language formats.
Proof.
  unfold find_formats, selects.
  destruct (subtitles info) as [tracks|]; simpl.
  - destruct (tracks !! language) as [fs|] eqn:Ht.
    + split.
      * intros [= <-]. left. by exists tracks.
      * intros [(t & [= <-] & Hl)|[[?|(t & [= <-] & Hl)] _]]; congruence.
    + split.
      * intros Ha. right. split; [right; by exists tracks|].
        destruct (automatic_captions info) as [auto|]; [|done].
        by exists auto.
      * intros [(t & [= <-] & Hl)|[_ (auto & -> & Hl)]]; [congruence|done].
  - split.
    + intros Ha. right. split; [by left|].
      destruct (automatic_captions info) as [auto|]; [|done]. by exists auto.
    + intros [(t & ? & _)|[_ (auto & -> & Hl)]]; done.
Qed.

Lemma find_formats_no_track info language :
  find_formats info language = None ↔ no_track info language.
Proof.
  unfold find_formats, no_track.
  destruct (subtitles info) as [tracks|]; simpl.
  - destruct (tracks !! language) as [fs|] eqn:Ht.
    + split; [done|]. intros [[?|(t & [= <-] & Hl)] _]; congruence.
    + destruct (automatic_captions info) as [auto|]; simpl.
      * split.
        -- intros Ha. split; right; [by exists tracks|by exists auto].
        -- intros [_ [?|(t & [= <-] & Hl)]]; done.
      * split; [|done]. intros _. split; [right; by exists tracks|by left].
  - destruct (automatic_captions info) as [auto|]; simpl.
    + split.
      * intros Ha. split; [by left|right; by exists auto].
      * intros [_ [?|(t & [= <-] & Hl)]]; done.
    + split; [|done]. intros _. split; by left.
Qed.

Lemma find_vtt_none formats :
  Forall (λ f, ¬ is_vtt f) formats → find_vtt formats = inr None.
Proof.
  induction 1 as [|fmt formats Hf _ IH]; simpl; [done|].
  by rewrite bool_decide_eq_false_2.
Qed.

Lemma find_vtt_first formats fmt :
  first_vtt formats fmt →
  find_vtt formats
  = match url fmt with
    | Some u => inr (Some u)
    | None => inl (py "'url'")
    end.
Proof.
  intros (before & after & -> & Hb & Hf).
  induction Hb as [|f before Hn _ IH]; simpl.
  - by rewrite bool_decide_eq_true_2.
  - by rewrite bool_decide_eq_false_2.
Qed.

Lemma find_vtt_raises formats message :
  find_vtt formats = inl message → message = py "'url'".
Proof.
  induction formats as [|fmt formats IH]; simpl; [done|].
  case_bool_decide; [|done]. destruct (url fmt); [done|]. by intros [= <-].
Qed.

(** The runs of [download_and_clean_subtitles]: one of three. *)
Lemma download_run (url language : str) :
  (∃ message,
     (extract_info url language = inl message
      ∨ message = language_not_found language
      ∨ message = vtt_not_found
      ∨ message = py "'url'") ∧
     download_and_clean_subtitles url language
     = ([Extract_info url language;
         Print_stderr (py "Error: " ++ message)], 1%Z))
  ∨ (∃ u message,
       u ≠ [] ∧ urlopen u = inl message ∧
       download_and_clean_subtitles url language
       = ([Extract_info url language; Urlopen u;
           Print_stderr (py "Error: " ++ message)], 1%Z))
  ∨ (∃ u subtitle_data segments,
       u ≠ [] ∧ urlopen u = inr subtitle_data ∧
       aggressive_clean_vtt subtitle_data = Ok segments ∧
       download_and_clean_subtitles url language
       = ([Extract_info url language; Urlopen u; Print_json segments], 0%Z)).
Proof.
  unfold download_and_clean_subtitles, handler.
  destruct (extract_info url language) as [m|info] eqn:Hinfo.
  { left. exists m. by split; [left|]. }
  destruct (find_formats info language) as [formats|].
  2: { left. eexists. by split; [right; left|]. }
  destruct (find_vtt formats) as [m|[[|c u]|]] eqn:Hvtt.
  - left. exists m. split; [|done].
    right. right. right. by apply (find_vtt_raises formats).
  - left. eexists. by split; [right; right; left|].
  - right. destruct (urlopen (c :: u)) as [m|subtitle_data] eqn:Hopen.
    + left. by exists (c :: u), m.
    + right. exists (c :: u), subtitle_data.
      rewrite aggressive_clean_vtt_segments. eexists. done.
  - left. eexists. by split; [right; right; left|].
Qed.


Lemma elem_of_run_extract (url language url' language' : str)
    (rest : list (event pyfloat)) :
  Forall (λ e, ∀ a b, e ≠ Extract_info a b) rest →
  Extract_info url' language' ∈ Extract_info url language :: rest ↔
  url' = url ∧ language' = language.
Proof.
  intros Hrest. rewrite elem_of_cons. split.
  - intros [[= -> ->]|Hin]; [done|].
    by destruct (proj1 (Forall_forall _ _) Hrest _ Hin url' language').
  - intros [-> ->]. by left.
Qed.

(** X2.  The process extracts information exactly when it has two
    arguments after the name of the program, and then of these two,
    whatever that name; its status is 0 or 1, and 0 exactly when its last
    event is the printing of the segments. *)
Theorem main_retrieves_with_two_arguments (argv : list str) :
  (∀ url language,
     Extract_info url language ∈ (main argv).1 ↔
     ∃ program, argv = [program; url; language]) ∧
  ((main argv).2 = 0%Z ∨ (main argv).2 = 1%Z) ∧
  ((main argv).2 = 0%Z ↔
   ∃ segments, last (main argv).1 = Some (Print_json segments)).
Proof.
  destruct (decide (length argv = 3%nat)) as [Hlen|Hlen].
  - destruct argv as [|program [|video_url [|lang [|]]]]; try done.
    change (main [program; video_url; lang])
      with (download_and_clean_subtitles video_url lang).
    assert (∀ (rest : list (event pyfloat)) url language,
              Forall (λ e, ∀ a b, e ≠ Extract_info a b) rest →
              Extract_info url language ∈ Extract_info video_url lang :: rest ↔
              ∃ program', [program; video_url; lang] = [program'; url; language])
      as Hin.
    { intros rest url language Hrest. rewrite elem_of_run_extract by done.
      split; [intros [-> ->]; by exists program|by intros (? & [= _ -> ->])]. }
    destruct (download_run video_url lang)
      as [(m & _ & ->)|[(u & m & _ & _ & ->)|(u & d & segs & _ & _ & _ & ->)]];
      cbn [fst snd]; (split_and!; [|auto|]).
    + intros url language. apply Hin. by apply Forall_singleton.
    + split; [done|]. by intros (? & ?).
    + intros url language. apply Hin.
      apply Forall_cons. split; [done|]. by apply Forall_singleton.
    + split; [done|]. by intros (? & ?).
    + intros url language. apply Hin.
      apply Forall_cons. split; [done|]. by apply Forall_singleton.
    + split; [|done]. intros _. by exists segs.
  - unfold main. rewrite (proj2 (Nat.eqb_neq _ _) Hlen). cbn [fst snd negb].
    split_and!.
    + intros url language. rewrite list_elem_of_singleton. split; [done|].
      by intros (program & ->).
    + by right.
    + split; [done|]. by intros (? & ?).
Qed.

End CommandLineFacts.

Section DownloadFacts.
Context {db : UnicodeDB} {py_set : SeenSet} {num : PyNum} {ydl : YoutubeDL}.


(** X5.  When the information has no track for the language, uploaded or
    automatic, the run ends after the extraction with the message of the
    missing language and status 1; nothing is opened. *)
Theorem download_language_not_found (url' language : str) (info : info) :
  extract_info url' language = inr info →
  no_track info language →
  download_and_clean_subtitles url' language
  = ([Extract_info url' language;
      Print_stderr (py "Error: " ++ language_not_found language)], 1%Z).
Proof.
  intros Hinfo Hno%find_formats_no_track.
  unfold download_and_clean_subtitles. by rewrite Hinfo, Hno.
Qed.

(** X6.  When the track of the language has no VTT format, or its first
    VTT format has the empty address, the run ends after the extraction
    with the message of the missing format and status 1; nothing is
    opened. *)
Theorem download_vtt_not_found (url' language : str) (info : info)
    (formats : list format) :
  extract_info url' language = inr info →
  selects info language formats →
  Forall (λ f, ¬ is_vtt f) formats
  ∨ (∃ fmt, first_vtt formats fmt ∧ url fmt = Some []) →
  download_and_clean_subtitles url' language
  = ([Extract_info url' language;
      Print_stderr (py "Error: " ++ vtt_not_found)], 1%Z).
Proof.
  intros Hinfo Hsel%find_formats_selects Hvtt.
  unfold download_and_clean_subtitles. rewrite Hinfo, Hsel.
  destruct Hvtt as [Hnone%find_vtt_none|(fmt & Hfmt%find_vtt_first & Hurl)].
  - by rewrite Hnone.
  - rewrite Hurl in Hfmt. by rewrite Hfmt.
Qed.

(** X7.  When the first VTT format of the track has no address, the run
    ends after the extraction with the message of the missing key and
    status 1, whatever formats follow: a later VTT format is not tried. *)
Theorem download_first_vtt_without_url (url' language : str) (info : info)
    (formats : list format) (fmt : format) :
  extract_info url' language = inr info →
  selects info language formats →
  first_vtt formats fmt →
  url fmt = None →
  download_and_clean_subtitles url' language
  = ([Extract_info url' language; Print_stderr (py "Error: 'url'")], 1%Z).
Proof.
  intros Hinfo Hsel%find_formats_selects Hfmt%find_vtt_first Hurl.
  rewrite Hurl in Hfmt. unfold download_and_clean_subtitles.
  by rewrite Hinfo, Hsel, Hfmt.
Qed.

(** X8.  When the extraction raises, the run is the extraction and the
    message of the exception on the error stream, with status 1. *)
Theorem download_extraction_fails (url' language message : str) :
  extract_info url' language = inl message →
  download_and_clean_subtitles url' language
  = ([Extract_info url' language;
      Print_stderr (py "Error: " ++ message)], 1%Z).
Proof.
  intros Hinfo. unfold download_and_clean_subtitles. by rewrite Hinfo.
Qed.

(** X9.  When the address of the first VTT format does not open, the run
    is the extraction, the opening and the message of the exception on
    the error stream, with status 1: no segments are printed. *)
Theorem download_open_fails (url' language : str) (info : info)
    (formats : list format) (fmt : format) (u message : str) :
  extract_info url' language = inr info →
  selects info language formats →
  first_vtt formats fmt →
  url fmt = Some u →
  u ≠ [] →
  urlopen u = inl message →
  download_and_clean_subtitles url' language
  = ([Extract_info url' language; Urlopen u;
      Print_stderr (py "Error: " ++ message)], 1%Z).
Proof.
  intros Hinfo Hsel%find_formats_selects Hfmt%find_vtt_first Hurl Hu Hopen.
  rewrite Hurl in Hfmt. unfold download_and_clean_subtitles.
  rewrite Hinfo, Hsel, Hfmt. destruct u as [|c u]; [done|].
  by rewrite Hopen.
Qed.

End DownloadFacts.

(** X3.  The run depends on the information only through the track the
    program takes for the language, the uploaded one before the
    automatic one: two collaborators whose information gives the same
    track, and that open alike, give the same run. *)
Theorem selected_track_decides {db : UnicodeDB} {py_set : SeenSet}
    {num : PyNum} (ydl1 ydl2 : YoutubeDL) (url' language : str)
    (info1 info2 : info) (formats : list format) :
  @extract_info ydl1 url' language = inr info1 →
  @extract_info ydl2 url' language = inr info2 →
  selects info1 language formats →
  selects info2 language formats →
  (∀ u, @urlopen ydl1 u = @urlopen ydl2 u) →
  download_and_clean_subtitles (ydl:=ydl1) url' language
  = download_and_clean_subtitles (ydl:=ydl2) url' language.
Proof.
  intros H1 H2 Hs1%find_formats_selects Hs2%find_formats_selects Hopen.
  unfold download_and_clean_subtitles. rewrite H1, H2, Hs1, Hs2.
  destruct (find_vtt formats) as [m|[[|c u]|]]; try done.
  by rewrite Hopen.
Qed.

Lemma selected_track_decides_witness :
  download_and_clean_subtitles (py_set:=gset_seen) (num:=binary64)
    (ydl:=fixed_ydl (inr demo_info) (inr demo_payload)) demo_url (py "en")
  = download_and_clean_subtitles (py_set:=gset_seen) (num:=binary64)
      (ydl:=fixed_ydl (inr demo_info_automatic) (inr demo_payload))
      demo_url (py "en").
Proof.
  apply (selected_track_decides
           (fixed_ydl (inr demo_info) (inr demo_payload))
           (fixed_ydl (inr demo_info_automatic) (inr demo_payload))
           demo_url (py "en") demo_info demo_info_automatic demo_formats).
  - reflexivity.
  - reflexivity.
  - left. exists {[ py "en" := demo_formats ]}. split; [reflexivity|].
    apply lookup_singleton_eq.
  - right. split.
    + right. exists ∅. split; [reflexivity|]. apply lookup_empty.
    + exists {[ py "en" := demo_formats ]}. split; [reflexivity|].
      apply lookup_singleton_eq.
  - reflexivity.
Defined.

Lemma demo_formats_first_vtt :
  first_vtt demo_formats {| ext := Some (py "vtt"); url := Some demo_vtt_url |}.
Proof.
  exists [ {| ext := Some (py "json3");
              url := Some (py "https://video.example/v1.en.json3") |} ], [].
  split; [reflexivity|]. split; [|reflexivity].
  apply Forall_singleton. unfold is_vtt. simpl. discriminate.
Defined.

Lemma demo_info_selects : selects demo_info (py "en") demo_formats.
Proof.
  left. exists {[ py "en" := demo_formats ]}. split; [reflexivity|].
  apply lookup_singleton_eq.
Defined.


Lemma download_language_not_found_witness :
  no_track demo_info (py "fr") ∧
  download_and_clean_subtitles (py_set:=gset_seen) (num:=binary64)
    (ydl:=demo_ydl) demo_url (py "fr")
  = ([Extract_info demo_url (py "fr");
      Print_stderr (py "Error: " ++ language_not_found (py "fr"))], 1%Z).
Proof.
  assert (no_track demo_info (py "fr")) as Hno.
  { split; right.
    - exists {[ py "en" := demo_formats ]}. split; [reflexivity|].
      apply lookup_singleton_ne. discriminate.
    - exists ∅. split; [reflexivity|]. apply lookup_empty. }
  split; [exact Hno|].
  apply (download_language_not_found (ydl:=demo_ydl) demo_url (py "fr")
           demo_info); [reflexivity|exact Hno].
Defined.

Lemma download_vtt_not_found_witness :
  download_and_clean_subtitles (py_set:=gset_seen) (num:=binary64)
    (ydl:=fixed_ydl (inr demo_info_no_vtt) (inr demo_payload))
    demo_url (py "en")
  = ([Extract_info demo_url (py "en");
      Print_stderr (py "Error: " ++ vtt_not_found)], 1%Z).
Proof.
  apply (download_vtt_not_found
           (ydl:=fixed_ydl (inr demo_info_no_vtt) (inr demo_payload))
           demo_url (py "en") demo_info_no_vtt
           [ {| ext := Some (py "json3");
                url := Some (py "https://video.example/v1.en.json3") |} ]).
  - reflexivity.
  - left. eexists. split; [reflexivity|]. apply lookup_singleton_eq.
  - left. apply Forall_singleton. unfold is_vtt. simpl. discriminate.
Defined.

Lemma download_first_vtt_without_url_witness :
  download_and_clean_subtitles (py_set:=gset_seen) (num:=binary64)
    (ydl:=fixed_ydl (inr demo_info_no_url) (inr demo_payload))
    demo_url (py "en")
  = ([Extract_info demo_url (py "en"); Print_stderr (py "Error: 'url'")], 1%Z).
Proof.
  apply (download_first_vtt_without_url
           (ydl:=fixed_ydl (inr demo_info_no_url) (inr demo_payload))
           demo_url (py "en") demo_info_no_url
           [ {| ext := Some (py "vtt"); url := None |};
             {| ext := Some (py "vtt"); url := Some demo_vtt_url |} ]
           {| ext := Some (py "vtt"); url := None |}).
  - reflexivity.
  - left. eexists. split; [reflexivity|]. apply lookup_singleton_eq.
  - exists [], [ {| ext := Some (py "vtt"); url := Some demo_vtt_url |} ].
    split; [reflexivity|]. split; [apply Forall_nil_2|reflexivity].
  - reflexivity.
Defined.

Lemma download_extraction_fails_witness :
  download_and_clean_subtitles (py_set:=gset_seen) (num:=binary64)
    (ydl:=demo_ydl) (py "https://example.org/") (py "en")
  = ([Extract_info (py "https://example.org/") (py "en");
      Print_stderr (py "Error: " ++ py "Unsupported URL")], 1%Z).
Proof.
  apply (download_extraction_fails (ydl:=demo_ydl)
           (py "https://example.org/") (py "en") (py "Unsupported URL")).
  reflexivity.
Defined.

Lemma download_open_fails_witness :
  download_and_clean_subtitles (py_set:=gset_seen) (num:=binary64)
    (ydl:=fixed_ydl (inr demo_info) (inl (py "HTTP Error 404: Not Found")))
    demo_url (py "en")
  = ([Extract_info demo_url (py "en"); Urlopen demo_vtt_url;
      Print_stderr (py "Error: " ++ py "HTTP Error 404: Not Found")], 1%Z).
Proof.
  apply (download_open_fails
           (ydl:=fixed_ydl (inr demo_info) (inl (py "HTTP Error 404: Not Found")))
           demo_url (py "en") demo_info demo_formats
           {| ext := Some (py "vtt"); url := Some demo_vtt_url |}
           demo_vtt_url (py "HTTP Error 404: Not Found")).
  - reflexivity.
  - exact demo_info_selects.
  - exact demo_formats_first_vtt.
  - reflexivity.
  - discriminate.
  - reflexivity.
Defined.

(** ** The pipeline *)

Section PipelineFacts.
Context {db : UnicodeDB}.

Lemma split_on_from_sep sep cur a b :
  split_on_from sep cur (a ++ sep :: b)
  = split_on_from sep cur a ++ split_on_from sep [] b.
Proof.
  revert cur. induction a as [|c a IH]; intros cur; simpl.
  - by rewrite N.eqb_refl.
  - destruct (c =? sep); [|apply IH].
    rewrite <- app_comm_cons. f_equal. apply IH.
Qed.

Lemma split_on_from_elem sep cur s line c :
  line ∈ split_on_from sep cur s → c ∈ line → c ∈ cur ++ s.
Proof.
  revert cur. induction s as [|d s IH]; intros cur; simpl.
  - intros ->%list_elem_of_singleton. by rewrite app_nil_r.
  - destruct (d =? sep).
    + intros [->|Hin]%elem_of_cons Hc; [set_solver|].
      specialize (IH [] Hin Hc). set_solver.
    + intros Hin Hc. specialize (IH _ Hin Hc).
      rewrite <- app_assoc in IH. exact IH.
Qed.

Lemma re_sub_tags_from_elem in_tag s c :
  c ∈ re_sub_tags_from in_tag s → c ∈ s.
Proof.
  revert in_tag. induction s as [|d s IH]; intros in_tag; simpl; [done|].
  destruct in_tag; [intros ?%IH; set_solver|].
  destruct ((d =? LT) && existsb (N.eqb GT) s).
  - intros ?%IH. set_solver.
  - intros [->|?%IH]%elem_of_cons; set_solver.
Qed.

Lemma clean_line_elem line c :
  c ∈ clean_line line → c = SP ∨ (c ∈ line ∧ isspace c = false).
Proof.
  unfold clean_line.
  intros [->|[Hc ?]]%strip_elem%re_sub_ws_from_elem; [by left|right].
  split; [|done]. by eapply re_sub_tags_from_elem.
Qed.

Lemma keeps_length line : keeps line = true → (2 < length (clean_line line))%nat.
Proof. unfold keeps. intros [_ ?%Nat.ltb_lt]%andb_true_iff. done. Qed.

Lemma collapsed_nospace in_run w rest :
  word w → collapsed false rest → collapsed in_run (w ++ rest).
Proof.
  intros [Hne Hw] Hrest. destruct w as [|c w]; [done|].
  apply Forall_cons in Hw as [Hc Hw]. simpl. rewrite Hc. clear Hne Hc.
  induction Hw as [|d w Hd _ IH]; [done|]. simpl. by rewrite Hd.
Qed.

Lemma collapsed_join ws in_run :
  Forall word ws → collapsed in_run (join [SP] ws).
Proof.
  intros Hws. revert in_run.
  induction Hws as [|w ws Hw Hws IH]; intros in_run; [done|].
  destruct ws as [|w' ws].
  - change (join [SP] [w]) with w. rewrite <- (app_nil_r w).
    by apply collapsed_nospace.
  - change (join [SP] (w :: w' :: ws)) with (w ++ SP :: join [SP] (w' :: ws)).
    apply collapsed_nospace; [done|]. simpl. rewrite isspace_SP.
    split_and!; [done..|]. apply IH.
Qed.

(** Step three on words: the collapse and the strip change nothing. *)
Lemma result_text_words ws :
  Forall word ws →
  result_text ws
  = match join [SP] ws with
    | [] => []
    | c :: rest => upper [c] ++ rest
    end.
Proof.
  intros Hws. unfold result_text, re_sub_ws.
  rewrite (re_sub_ws_from_id false) by by apply collapsed_join.
  rewrite strip_join by done. by destruct (join [SP] ws).
Qed.

Lemma first_occurrences_words before ws :
  Forall word ws → Forall word (first_occurrences before ws).
Proof.
  intros Hws. apply Forall_forall. intros w Hw.
  apply first_occurrences_elem in Hw as (ws1 & ws2 & -> & _).
  apply Forall_app in Hws as [_ Hws]. by apply Forall_cons in Hws as [? _].
Qed.

Lemma concat_split_words (lines : list str) :
  Forall word (concat (split <$> lines)).
Proof.
  apply Forall_concat, Forall_fmap, Forall_forall. intros line _.
  apply split_words.
Qed.

Lemma split_word w : word w → split w = [w].
Proof. intros Hw. apply (split_join [w]). by apply Forall_singleton. Qed.

Lemma concat_split_of_words ws :
  Forall word ws → concat (split <$> ws) = ws.
Proof.
  induction 1 as [|w ws Hw _ IH]; [done|].
  rewrite fmap_cons. simpl. by rewrite split_word, IH.
Qed.

Lemma first_occurrences_fixed ws : ∀ before,
  NoDup (clean_word <$> ws) →
  Forall (λ w, clean_word w ≠ [] ∧ clean_word w ∉ clean_word <$> before) ws →
  first_occurrences before ws = ws.
Proof.
  induction ws as [|w ws IH]; intros before Hdup Hws; [done|].
  rewrite fmap_cons in Hdup. apply NoDup_cons in Hdup as [Hw Hdup].
  apply Forall_cons in Hws as [[Hne Hbefore] Hws]. simpl.
  rewrite decide_True by done. simpl. f_equal. apply IH; [done|].
  apply Forall_forall. intros w' Hw'.
  rewrite Forall_forall in Hws. destruct (Hws w' Hw') as [? ?].
  split; [done|]. rewrite fmap_app. simpl.
  intros [?|Heq%list_elem_of_singleton]%elem_of_app; [done|].
  apply Hw. rewrite <- Heq. by apply list_elem_of_fmap_2.
Qed.

Lemma first_occurrences_again ws :
  first_occurrences [] (first_occurrences [] ws) = first_occurrences [] ws.
Proof.
  apply first_occurrences_fixed; [apply first_occurrences_NoDup|].
  apply Forall_forall. intros w Hw.
  apply (first_occurrences_keys [] ws). by apply list_elem_of_fmap_2.
Qed.

Lemma join_snoc (sep : str) ws w :
  ws ≠ [] → join sep (ws ++ [w]) = join sep ws ++ sep ++ w.
Proof.
  induction ws as [|v ws IH]; [done|]. intros _.
  destruct ws as [|v' ws]; [done|].
  change (join sep ((v :: v' :: ws) ++ [w]))
    with (v ++ sep ++ join sep ((v' :: ws) ++ [w])).
  rewrite IH by done.
  change (join sep (v :: v' :: ws)) with (v ++ sep ++ join sep (v' :: ws)).
  by rewrite <- !app_assoc.
Qed.

Lemma never_closed_prefix p q : never_closed (p ++ q) → never_closed p.
Proof.
  intros Hpq p0 w0 q0 ->. apply (Hpq p0 w0 (q0 ++ q)).
  by rewrite <- app_assoc.
Qed.

Lemma never_closed_bound p :
  never_closed p →
  (length (join [SP] p) ≤ 50)%nat ∧
  Forall (λ v, endswith_any sentence_marks v = false) p.
Proof.
  intros Hp. split.
  - destruct (decide (p = [])) as [->|Hne]; [simpl; lia|].
    destruct (exists_last Hne) as (p0 & v & ->).
    specialize (Hp p0 v [] eq_refl). unfold closes in Hp.
    apply orb_false_iff in Hp as [_ Hp%Nat.ltb_ge]. done.
  - apply Forall_forall. intros v (p0 & q & ->)%list_elem_of_split.
    specialize (Hp p0 v q eq_refl). unfold closes in Hp.
    by apply orb_false_iff in Hp as [? _].
Qed.

Lemma sentences_words result_text :
  concat (split <$> sentences result_text) = split result_text.
Proof.
  destruct (sentences_word_blocks result_text) as (blocks & -> & <- & Hb).
  f_equal. rewrite <- list_fmap_compose.
  induction Hb as [|b blocks [_ Hb] _ IH]; [done|].
  rewrite fmap_cons. simpl. by rewrite split_join, IH.
Qed.

Context {py_set : SeenSet}.

Lemma unique_words_words text_lines : Forall word (unique_words text_lines).
Proof.
  rewrite unique_words_first_occurrences.
  apply first_occurrences_words, concat_split_words.
Qed.

End PipelineFacts.

(** X10.  Every text line is longer than two characters, has no
    whitespace at either end, no tag and no line feed, and its only
    whitespace is single spaces; each of its characters other than
    these spaces is a character of the payload that is not whitespace:
    step one invents nothing. *)
Theorem text_lines_clean {db : UnicodeDB} (vtt_content : str) :
  Forall (λ line,
            (2 < length line)%nat ∧ stripped line ∧ tagfree line ∧
            collapsed false line ∧ (LF ∉ line) ∧
            ∀ c, c ∈ line → c = SP ∨ (c ∈ vtt_content ∧ isspace c = false))
    (text_lines vtt_content).
Proof.
  rewrite text_lines_filter. apply Forall_fmap, Forall_forall.
  intros line Hin. apply list_elem_of_In, filter_In in Hin as [Hline Hkeeps].
  split_and!.
  - by apply keeps_length.
  - apply clean_line_stripped.
  - apply clean_line_tagfree.
  - apply clean_line_collapsed.
  - apply clean_line_no_LF.
  - intros c [->|[Hc Hspace]]%clean_line_elem; [by left|right].
    split; [|done].
    apply list_elem_of_In, list_elem_of_fmap in Hline as (raw & -> & Hraw).
    apply strip_elem in Hc.
    apply (split_on_from_elem LF [] vtt_content raw c Hraw Hc).
Qed.

(** X11.  The text lines are found line by line: those of two payloads
    joined by a line feed are those of the first followed by those of
    the second. *)
Theorem text_lines_line_by_line {db : UnicodeDB} (vtt_a vtt_b : str) :
  text_lines (vtt_a ++ [LF] ++ vtt_b) = text_lines vtt_a ++ text_lines vtt_b.
Proof.
  rewrite !text_lines_filter. unfold split_on. simpl.
  by rewrite split_on_from_sep, fmap_app, List.filter_app, fmap_app.
Qed.

(** X12.  Whitespace around the lines of a payload plays no part:
    stripping every line first gives the same text lines. *)
Theorem text_lines_padding {db : UnicodeDB} (lines : list str) :
  Forall (λ line, LF ∉ line) lines →
  text_lines (join [LF] (strip <$> lines)) = text_lines (join [LF] lines).
Proof.
  intros Hlines. destruct (decide (lines = [])) as [->|Hne]; [done|].
  rewrite !text_lines_filter, !split_on_join; [|done..| |].
  - rewrite <- list_fmap_compose. do 2 f_equal.
    apply list_fmap_ext. intros _ line _. apply strip_idemp.
  - by destruct lines.
  - apply Forall_fmap. eapply Forall_impl; [exact Hlines|].
    intros line Hline ?%strip_elem. done.
Qed.

Lemma text_lines_padding_witness :
  text_lines (db:=ascii_db)
    (join [LF] (strip <$> [py "  Hello there  "; py " 12 "; py " again"]))
  = text_lines (join [LF] [py "  Hello there  "; py " 12 "; py " again"]).
Proof.
  apply (text_lines_padding [py "  Hello there  "; py " 12 "; py " again"]).
  repeat (apply Forall_cons; split;
          [apply (bool_decide_unpack _); by vm_compute|]).
  apply Forall_nil_2.
Defined.

(** X13.  Step three only joins and capitalises: on the unique words the
    collapse of whitespace and the strip change nothing, so the text is
    the unique words joined by single spaces, with its first character
    upper-cased. *)
Theorem result_text_capitalises {db : UnicodeDB} {py_set : SeenSet}
    (text_lines : list str) :
  let words := unique_words text_lines in
  result_text words
  = match join [SP] words with
    | [] => []
    | c :: rest => upper [c] ++ rest
    end.
Proof. apply result_text_words, unique_words_words. Qed.

(** X14.  Step two is idempotent: the unique words, read again as lines
    or as the one line they join to, are all kept, in their order. *)
Theorem unique_words_again {db : UnicodeDB} {py_set : SeenSet}
    (text_lines : list str) :
  let words := unique_words text_lines in
  unique_words words = words ∧
  unique_words [join [SP] words] = words.
Proof.
  intros words. pose proof (unique_words_words text_lines) as Hwords.
  fold words in Hwords. split.
  - rewrite unique_words_first_occurrences, concat_split_of_words by done.
    unfold words. rewrite unique_words_first_occurrences.
    apply first_occurrences_again.
  - rewrite unique_words_first_occurrences. simpl.
    rewrite split_join, app_nil_r by done.
    unfold words. rewrite unique_words_first_occurrences.
    apply first_occurrences_again.
Qed.

(** X15.  A sentence is its words joined by single spaces; before its
    last word it is at most 50 characters long and no word ends in a
    sentence mark, so it is at most 51 characters longer than its last
    word. *)
Theorem sentences_bounded {db : UnicodeDB} (result_text : str) :
  Forall (λ sentence,
            ∃ p w, sentence = join [SP] (p ++ [w]) ∧
              Forall word (p ++ [w]) ∧
              (length (join [SP] p) ≤ 50)%nat ∧
              Forall (λ v, endswith_any sentence_marks v = false) p ∧
              (length sentence ≤ 51 + length w)%nat)
    (sentences result_text).
Proof.
  destruct (sentences_blocks result_text)
    as (closed & rest & Hsplit & Hclosed & Hrest & ->).
  pose proof (split_words result_text) as Hwords. rewrite Hsplit in Hwords.
  apply Forall_app in Hwords as [Hwc Hwr].
  assert (∀ p w, Forall word (p ++ [w]) → never_closed p →
            ∃ p' w', join [SP] (p ++ [w]) = join [SP] (p' ++ [w']) ∧
              Forall word (p' ++ [w']) ∧
              (length (join [SP] p') ≤ 50)%nat ∧
              Forall (λ v, endswith_any sentence_marks v = false) p' ∧
              (length (join [SP] (p ++ [w])) ≤ 51 + length w')%nat) as Hblock.
  { intros p w Hw [Hlen Hmarks]%never_closed_bound.
    exists p, w. split_and!; [done..|].
    destruct (decide (p = [])) as [->|Hne]; [simpl; lia|].
    rewrite join_snoc, !length_app by done. simpl. lia. }
  apply Forall_app. split.
  - apply Forall_fmap, Forall_forall. intros b Hb.
    rewrite Forall_forall in Hclosed.
    destruct (Hclosed b Hb) as (p & w & -> & Hp & _).
    apply Hblock; [|done].
    rewrite Forall_concat, Forall_forall in Hwc. by apply Hwc.
  - destruct (decide (rest = [])) as [->|Hne]; [by apply Forall_nil_2|].
    destruct (exists_last Hne) as (p & w & ->).
    replace (nonempty (p ++ [w])) with true by by destruct p.
    apply Forall_singleton. apply Hblock; [done|].
    by eapply never_closed_prefix.
Qed.

(** X16.  From the payload to the segments: when upper-casing the first
    character of the first unique word gives a word, the function
    returns one segment for each sentence, and the words of the texts of
    the segments, in order, are the unique words, the first of them
    capitalised. *)
Theorem segments_spell_unique_words {db : UnicodeDB} {py_set : SeenSet}
    {num : PyNum} (vtt_content : str) (c : char) (w : str) (ws : list str) :
  unique_words (text_lines vtt_content) = (c :: w) :: ws →
  word (upper [c]) →
  ∃ segs,
    aggressive_clean_vtt vtt_content = Ok segs ∧
    text <$> segs
    = sentences (result_text (unique_words (text_lines vtt_content))) ∧
    concat (split <$> (text <$> segs)) = (upper [c] ++ w) :: ws.
Proof.
  intros Hunique [Hne Hupper].
  pose proof (unique_words_words (text_lines vtt_content)) as Hwords.
  rewrite aggressive_clean_vtt_segments.
  destruct (text_lines vtt_content) as [|line text_lines] eqn:Hlines;
    [done|]. simpl nonempty. cbv iota.
  eexists. split; [done|].
  assert (∀ (n : nat) (l : list str), text <$> imap (segment_at n) l = l)
    as Htext.
  { intros n l. apply list_eq. intros i.
    rewrite list_lookup_fmap, list_lookup_imap.
    by destruct (l !! i). }
  rewrite Htext. split; [done|].
  rewrite sentences_words, result_text_words, Hunique by done.
  rewrite Hunique in Hwords. apply Forall_cons in Hwords as [[_ Hw] Hws].
  apply Forall_cons in Hw as [_ Hw].
  assert (word (upper [c] ++ w)) as Hfirst.
  { split; [by destruct (upper [c])|]. by apply Forall_app. }
  destruct ws as [|w' ws].
  - change (join [SP] [c :: w]) with (c :: w). cbv iota.
    apply split_word, Hfirst.
  - change (join [SP] ((c :: w) :: w' :: ws))
      with (c :: w ++ [SP] ++ join [SP] (w' :: ws)). cbv iota.
    replace (upper [c] ++ w ++ [SP] ++ join [SP] (w' :: ws))
      with (join [SP] ((upper [c] ++ w) :: w' :: ws))
      by (change (join [SP] ((upper [c] ++ w) :: w' :: ws))
            with ((upper [c] ++ w) ++ [SP] ++ join [SP] (w' :: ws));
          by rewrite <- app_assoc).
    apply split_join. by apply Forall_cons.
Qed.

Lemma segments_spell_unique_words_witness :
  ∃ segs,
    aggressive_clean_vtt (py_set:=gset_seen) (num:=binary64) demo_payload
    = Ok segs ∧
    text <$> segs
    = sentences (result_text (unique_words (py_set:=gset_seen)
                                (text_lines demo_payload))) ∧
    concat (split <$> (text <$> segs))
    = [py "Hello"; py "world"; py "again"].
Proof.
  apply (segments_spell_unique_words (db:=ascii_db) (py_set:=gset_seen)
           (num:=binary64) demo_payload 72 (py "ello")
           [py "world"; py "again"]).
  - by vm_compute.
  - split; [discriminate|]. by repeat constructor.
Defined.

Section WordFacts.
Context {db : UnicodeDB}.

Lemma split_from_re_sub_ws s : ∀ cur in_run,
  (in_run = true → cur = []) →
  split_from cur (re_sub_ws_from in_run s) = split_from cur s.
Proof.
  induction s as [|c s IH]; intros cur in_run Hrun; [done|]. simpl.
  destruct (isspace c) eqn:Hc.
  - destruct in_run.
    + rewrite (Hrun eq_refl). by apply IH.
    + simpl. rewrite isspace_SP. destruct cur; [|f_equal]; by apply IH.
  - simpl. rewrite Hc. by apply IH.
Qed.

Lemma lstrip_spaces s :
  ∃ a, s = a ++ lstrip s ∧ Forall (λ c, isspace c = true) a.
Proof.
  induction s as [|c s (a & IH & Ha)]; [by exists []|]. simpl.
  destruct (isspace c) eqn:Hc.
  - exists (c :: a). split; [simpl; by f_equal|by apply Forall_cons].
  - by exists [].
Qed.

Lemma rstrip_spaces s :
  ∃ b, s = rstrip s ++ b ∧ Forall (λ c, isspace c = true) b.
Proof.
  induction s as [|c s (b & IH & Hb)] using rev_ind.
  - exists []. split; [reflexivity|apply Forall_nil_2].
  - rewrite rstrip_snoc. destruct (isspace c) eqn:Hc.
    + exists (b ++ [c]). split.
      * rewrite app_assoc. by f_equal.
      * apply Forall_app. split; [done|]. by apply Forall_singleton.
    + exists []. by rewrite app_nil_r.
Qed.

Lemma split_from_leading a s :
  Forall (λ c, isspace c = true) a → split_from [] (a ++ s) = split_from [] s.
Proof. induction 1 as [|c a Hc _ IH]; [done|]. simpl. by rewrite Hc. Qed.

Lemma split_from_trailing s b : ∀ cur,
  Forall (λ c, isspace c = true) b → split_from cur (s ++ b) = split_from cur s.
Proof.
  intros cur Hb. revert cur. induction s as [|c s IH]; intros cur.
  - rewrite app_nil_l. revert cur.
    induction Hb as [|c b Hc _ IH]; intros cur; [done|]. simpl. rewrite Hc.
    destruct cur; [apply (IH [])|]. by rewrite (IH []).
  - simpl. destruct (isspace c); [destruct cur; [|f_equal]|]; apply IH.
Qed.

Lemma split_strip s : split (strip s) = split s.
Proof.
  unfold strip, split.
  destruct (lstrip_spaces s) as (a & Hs & Ha).
  destruct (rstrip_spaces (lstrip s)) as (b & Hl & Hb).
  rewrite Hs at 2. rewrite split_from_leading by done.
  rewrite Hl at 2. by rewrite split_from_trailing.
Qed.

Lemma split_clean_line line : split (clean_line line) = split (re_sub_tags line).
Proof.
  unfold clean_line. rewrite split_strip. by apply split_from_re_sub_ws.
Qed.

Lemma split_from_space cur s1 s2 :
  split_from cur (s1 ++ SP :: s2) = split_from cur s1 ++ split s2.
Proof.
  revert cur. induction s1 as [|c s1 IH]; intros cur; simpl.
  - rewrite isspace_SP. by destruct cur.
  - destruct (isspace c); [destruct cur|]; rewrite ?IH; done.
Qed.

Lemma split_join_strings (ss : list str) :
  split (join [SP] ss) = concat (split <$> ss).
Proof.
  induction ss as [|s ss IH]; [done|]. destruct ss as [|s' ss].
  - simpl. by rewrite app_nil_r.
  - change (join [SP] (s :: s' :: ss)) with (s ++ SP :: join [SP] (s' :: ss)).
    unfold split at 1. rewrite split_from_space, IH. done.
Qed.

Lemma first_occurrences_app ws ws' : ∀ before,
  first_occurrences before (ws ++ ws')
  = first_occurrences before ws ++ first_occurrences (before ++ ws) ws'.
Proof.
  induction ws as [|w ws IH]; intros before; simpl.
  - by rewrite app_nil_r.
  - rewrite IH, <- !app_assoc. done.
Qed.

End WordFacts.

(** X17.  The removal of tags: up to the first ['<'] the line is kept,
    and a ['<'] with a ['>'] after it is removed with everything up to
    the first such ['>'], other ['<'] included. *)
Theorem re_sub_tags_first_tag (before body rest : str) :
  LT ∉ before → GT ∉ body →
  re_sub_tags (before ++ LT :: body ++ GT :: rest)
  = before ++ re_sub_tags rest.
Proof.
  intros Hbefore Hbody. induction before as [|c before IH]; simpl app.
  - by apply re_sub_tags_tag.
  - apply not_elem_of_cons in Hbefore as [Hc Hbefore].
    rewrite re_sub_tags_char by (left; congruence).
    by rewrite IH.
Qed.

Lemma re_sub_tags_first_tag_witness :
  re_sub_tags (py "Hello " ++ LT :: py "c.x<y" ++ GT :: py "world")
  = py "Hello " ++ re_sub_tags (py "world").
Proof.
  apply (re_sub_tags_first_tag (py "Hello ") (py "c.x<y") (py "world"));
    apply (bool_decide_unpack _); by vm_compute.
Defined.

(** X18.  The words of a text line are the words of the stripped line
    without its tags: the collapse of whitespace and the strip of step
    one change no word that step two reads. *)
Theorem text_lines_words {db : UnicodeDB} (vtt_content : str) :
  (∀ line, split (clean_line line) = split (re_sub_tags line)) ∧
  concat (split <$> text_lines vtt_content)
  = concat ((λ line, split (re_sub_tags line))
              <$> List.filter keeps (strip <$> split_on LF vtt_content)).
Proof.
  split; [apply split_clean_line|].
  rewrite text_lines_filter, <- list_fmap_compose. f_equal.
  apply list_fmap_ext. intros _ line _. apply split_clean_line.
Qed.

(** X19.  Step two reads on: the unique words of more text lines are
    those of the first lines, followed by the words of the further
    lines that are first occurrences after all the words before. *)
Theorem unique_words_grow {db : UnicodeDB} {py_set : SeenSet}
    (text_lines more : list str) :
  unique_words (text_lines ++ more)
  = unique_words text_lines
    ++ first_occurrences (concat (split <$> text_lines))
         (concat (split <$> more)) ∧
  unique_words text_lines `prefix_of` unique_words (text_lines ++ more).
Proof.
  assert (unique_words (text_lines ++ more)
          = unique_words text_lines
            ++ first_occurrences (concat (split <$> text_lines))
                 (concat (split <$> more))) as Heq.
  { rewrite !unique_words_first_occurrences, fmap_app, concat_app.
    by rewrite first_occurrences_app. }
  split; [done|]. rewrite Heq. by eexists.
Qed.

(** X20.  Step four is stable: the sentences, joined by single spaces
    and cut again, are the same sentences. *)
Theorem sentences_rejoined {db : UnicodeDB} (result_text : str) :
  sentences (join [SP] (sentences result_text)) = sentences result_text.
Proof.
  unfold sentences at 1. by rewrite split_join_strings, sentences_words.
Qed.

(** X21.  There is a sentence exactly when the text has a word, and
    never more sentences than words. *)
Theorem sentences_count {db : UnicodeDB} (result_text : str) :
  (sentences result_text = [] ↔ split result_text = []) ∧
  (length (sentences result_text) ≤ length (split result_text))%nat.
Proof.
  destruct (sentences_word_blocks result_text) as (blocks & -> & <- & Hb).
  split.
  - destruct Hb as [|b blocks [Hne _] _]; [done|].
    split; [done|]. simpl. by destruct b.
  - rewrite length_fmap.
    induction Hb as [|b blocks [Hne _] _ IH]; [done|].
    simpl. rewrite length_app. destruct b; [done|]. simpl. lia.
Qed.
